(** * benchmark-intl: the benchmark harness of [src/BenchmarkController.tsx]

    A shallow embedding of the three pieces of logic of the file:

    - the data preparation ([shuffleArray], [NUM_OF_ITEMS], [allLocales],
      [arrayOfLocale]), over a store of JavaScript arrays;
    - the date computed by [LocalCard] ([uniqueOffset], [dynamicDate]), over
      the time values of ECMA-262;
    - the benchmark controller ([triggerSwitch], the [useLayoutEffect]
      callback and the six [useState] hooks), as a state machine driven by
      triggers and commits.

    The model comes first, the lemmas and theorems follow. *)

From Stdlib Require Import ZArith Lia Ascii.
From stdpp Require Import base numbers option list gmap strings pretty.

Local Open Scope Z_scope.

(* ===================================================================== *)
(** * Part I: the model *)
(* ===================================================================== *)

(** ** JavaScript numbers that hold integers

    A [number] is an IEEE-754 double.  The counters, sums and day numbers
    of this program are integers, which a double holds exactly up to
    [2^53] in magnitude; above, the result of an operation is rounded to
    the nearest double, ties to the even mantissa.  (Magnitudes of [2^1024]
    and more, where a double overflows, are out of this model.) *)
Module Number.

(** The multiple of [q] nearest to [x], ties to the even multiple. *)
Definition round_to (q x : Z) : Z :=
  let lo := x / q in
  let r := x mod q in
  if 2 * r <? q then lo * q
  else if q <? 2 * r then (lo + 1) * q
  else if Z.even lo then lo * q else (lo + 1) * q.

(** The double nearest to the integer [x]: 53 bits of mantissa. *)
Definition of_Z (x : Z) : Z :=
  let e := Z.log2 (Z.abs x) in
  if e <? 53 then x else round_to (2 ^ (e - 52)) x.

Definition add (a b : Z) : Z := of_Z (a + b).
Definition mul (a b : Z) : Z := of_Z (a * b).

(** [Number.MAX_SAFE_INTEGER + 1]: from here on [k + 1] no longer is [k]'s
    successor. *)
Definition MAX_EXACT : Z := 2 ^ 53.

End Number.

(** [Math.random()] returns a double in [[0, 1)]; a draw is modelled by its
    numerator [r mod 2^53] over [2^53] (the 53 random mantissa bits the
    engines produce), so that every [r : Z] stands for a draw in range. *)
Module Math.

Definition numerator (r : Z) : Z := r mod 2 ^ 53.

(** [Math.floor(Math.random() * n)] for a draw [r] and an integer [n].
    The product of the doubles [p / 2^53] and [n] is [p * n / 2^53]
    rounded to 53 bits, that is [Number.of_Z (p * n)] over [2^53]; the
    floor is taken of the rounded product. *)
Definition floor_random_times (r n : Z) : Z :=
  Number.of_Z (numerator r * n) / 2 ^ 53.

(** [Math.random() > 0.5] for a draw [r]. *)
Definition random_gt_half (r : Z) : bool := 2 ^ 52 <? numerator r.

End Math.

(* --------------------------------------------------------------------- *)
(** ** The store of arrays, and the data preparation *)
(* --------------------------------------------------------------------- *)

(** A [string[]] value is a reference to an array of the store: two
    variables may name one array, and a write through either is seen
    through both. *)
Definition ref := positive.

Record World := {
  arrays : gmap ref (list string);  (* the arrays allocated so far *)
  draws : nat;                      (* calls of [Math.random()] so far *)
}.

Definition empty_world : World := {| arrays := ∅; draws := 0 |}.

(** A computation reads and writes the world and returns a value, or
    leaves the typed program ([None]): it read an index that holds no
    string, wrote past the end of an array, or used a dangling reference.
    No such step throws in JavaScript; [shuffleArray] is shown never to
    take one. *)
Definition M (A : Type) : Type := World → option (A * World).

#[global] Instance M_ret : MRet M := λ A a w, Some (a, w).
#[global] Instance M_bind : MBind M := λ A B f m w,
  match m w with
  | Some (a, w') => f a w'
  | None => None
  end.

Section data_prep.

(** The host's sequence of draws: [random n] is what the call number [n]
    of [Math.random()] returns (see [Math.numerator]). *)
Variable random : nat → Z.

Definition Math_random : M Z := λ w,
  Some (random (draws w), {| arrays := arrays w; draws := S (draws w) |}).

(** An array literal or copy: a new array, at a reference not in use. *)
Definition new_array (xs : list string) : M ref := λ w,
  let a := fresh (dom (arrays w)) in
  Some (a, {| arrays := <[a := xs]> (arrays w); draws := draws w |}).

Definition read (a : ref) : M (list string) := λ w,
  match arrays w !! a with
  | Some xs => Some (xs, w)
  | None => None
  end.

(** [a[i]], where it holds a string. *)
Definition get (a : ref) (i : nat) : M string := λ w,
  match arrays w !! a with
  | Some xs =>
      match xs !! i with
      | Some x => Some (x, w)
      | None => None
      end
  | None => None
  end.

(** [a[i] = x], within the array. *)
Definition put (a : ref) (i : nat) (x : string) : M unit := λ w,
  match arrays w !! a with
  | Some xs =>
      if bool_decide (i < length xs)%nat
      then Some (tt, {| arrays := <[a := <[i := x]> xs]> (arrays w); draws := draws w |})
      else None
  | None => None
  end.

(** [a.slice(start, end)] for integers [start] and [end]: negative
    indices count from the end, all are clamped to the array. *)
Definition slice_bound (len i : Z) : Z :=
  if i <? 0 then Z.max (len + i) 0 else Z.min i len.

Definition slice (a : ref) (start end_ : Z) : M ref :=
  xs ← read a;
  let len := Z.of_nat (length xs) in
  let k := slice_bound len start in
  let final := slice_bound len end_ in
  new_array (take (Z.to_nat (final - k)) (drop (Z.to_nat k) xs)).

(** The loop [for (let i = ...; i > 0; i--)] of [shuffleArray], entered
    with the value [i]. *)
Fixpoint shuffle_loop (shuffled : ref) (i : nat) : M unit :=
  match i with
  | O => mret tt
  | S i' =>
      r ← Math_random;
      let randomIndex := Z.to_nat (Math.floor_random_times r (Z.of_nat i + 1)) in
      (* [shuffled[i], shuffled[randomIndex]] = [shuffled[randomIndex], shuffled[i]] *)
      x ← get shuffled randomIndex;
      y ← get shuffled i;
      put shuffled i x;;
      put shuffled randomIndex y;;
      shuffle_loop shuffled i'
  end.

(** [limit ? ... : ...] for a limit that is absent or an integer. *)
Definition truthy (limit : option Z) : bool :=
  match limit with
  | Some l => negb (l =? 0)
  | None => false
  end.

(** [shuffleArray(array, limit)]; [limit] is [None] when absent. *)
Definition shuffleArray (array : ref) (limit : option Z) : M ref :=
  xs ← read array;
  shuffled ← new_array xs;                      (* [...array] *)
  shuffle_loop shuffled (Z.to_nat (Z.of_nat (length xs) - 1));;
  if truthy limit
  then slice shuffled 0 (default 0 limit)
  else mret shuffled.

(** [new Array(n).fill(0).map(() => body)]: the callback runs [n] times,
    in index order. *)
Fixpoint array_fill_map {A} (n : nat) (body : M A) : M (list A) :=
  match n with
  | O => mret []
  | S n' => b ← body; bs ← array_fill_map n' body; mret (b :: bs)
  end.

Definition NUM_OF_ITEMS : Z := 50.

(** The module's data preparation, given the values of
    [Locales.ALL_LOCALES] (the catalog of the [intlayer] package):
    [allLocales] and [arrayOfLocale]. *)
Definition data_prep (ALL_LOCALES : list string) : M (ref * list ref) :=
  allLocales ← new_array ALL_LOCALES;           (* Object.values(...) *)
  arrayOfLocale ← array_fill_map 20 (shuffleArray allLocales (Some NUM_OF_ITEMS));
  mret (allLocales, arrayOfLocale).

(** [shuffleArray(xs, limit)] on an array holding [xs], from the empty
    store: the contents of the array returned, and of the argument
    afterwards. *)
Definition call_shuffleArray (xs : list string) (limit : option Z)
    : option (list string * list string) :=
  match (array ← new_array xs; result ← shuffleArray array limit;
         ys ← read result; xs' ← read array; mret (ys, xs')) empty_world with
  | Some (r, _) => Some r
  | None => None
  end.

End data_prep.

(** The number of elements [shuffleArray] returns for an array of [len]
    elements: all of them, or the length of the slice when [limit] is
    truthy. *)
Definition kept (len : nat) (limit : option Z) : nat :=
  if truthy limit
  then Z.to_nat (slice_bound (Z.of_nat len) (default 0 limit))
  else len.

(** A catalog of 52 locale identifiers. *)
Definition sample_catalog : list string :=
  ["af"; "af-ZA"; "ar"; "ar-AE"; "ar-EG"; "ar-SA"; "bg"; "bg-BG"; "bn"; "ca";
   "cs"; "cs-CZ"; "da"; "da-DK"; "de"; "de-AT"; "de-CH"; "de-DE"; "el"; "el-GR";
   "en"; "en-AU"; "en-CA"; "en-GB"; "en-US"; "es"; "es-AR"; "es-ES"; "es-MX"; "fi";
   "fr"; "fr-BE"; "fr-CA"; "fr-CH"; "fr-FR"; "he"; "hi"; "hu"; "id"; "it";
   "it-IT"; "ja"; "ko"; "nl"; "pl"; "pt"; "pt-BR"; "ru"; "sv"; "tr";
   "uk"; "zh"].

(** What each reference of a list holds in [w]. *)
Definition contents (w : World) (refs : list ref) : list (option (list string)) :=
  (λ a, arrays w !! a) <$> refs.

(** The elements of [xs] found at the positions [ps] of [catalog]. *)
Definition drawn_from (catalog : list string) (ps : list nat) (xs : list string) : Prop :=
  Forall2 (λ p x, catalog !! p = Some x) ps xs.

(* --------------------------------------------------------------------- *)
(** ** Time values and [Date] (ECMA-262, section 21.4.1) *)
(* --------------------------------------------------------------------- *)

Module Date.

(** A time value is a number of milliseconds since the epoch, or [NaN]
    (an invalid [Date]), here [None]. *)
Definition msPerDay : Z := 86400000.

Definition Day (t : Z) : Z := t / msPerDay.
Definition TimeWithinDay (t : Z) : Z := t mod msPerDay.

Definition DaysInYear (y : Z) : Z :=
  if negb (y mod 4 =? 0) then 365
  else if negb (y mod 100 =? 0) then 366
  else if negb (y mod 400 =? 0) then 365
  else 366.

Definition DayFromYear (y : Z) : Z :=
  365 * (y - 1970) + (y - 1969) / 4 - (y - 1901) / 100 + (y - 1601) / 400.

Definition TimeFromYear (y : Z) : Z := msPerDay * DayFromYear y.

(** The largest [y] with [TimeFromYear y ≤ t]: 400 years have 146097 days,
    which gives the year up to one, and the two comparisons settle it. *)
Definition YearFromTime (t : Z) : Z :=
  let d := Day t in
  let y := 1970 + (400 * d) / 146097 in
  if DayFromYear (y + 1) <=? d then y + 1
  else if DayFromYear y <=? d then y
  else y - 1.

Definition InLeapYear (t : Z) : Z :=
  if DaysInYear (YearFromTime t) =? 366 then 1 else 0.

Definition DayWithinYear (t : Z) : Z := Day t - DayFromYear (YearFromTime t).

Definition MonthFromTime (t : Z) : Z :=
  let d := DayWithinYear t in
  let leap := InLeapYear t in
  if d <? 31 then 0
  else if d <? 59 + leap then 1
  else if d <? 90 + leap then 2
  else if d <? 120 + leap then 3
  else if d <? 151 + leap then 4
  else if d <? 181 + leap then 5
  else if d <? 212 + leap then 6
  else if d <? 243 + leap then 7
  else if d <? 273 + leap then 8
  else if d <? 304 + leap then 9
  else if d <? 334 + leap then 10
  else 11.

Definition DateFromTime (t : Z) : Z :=
  let d := DayWithinYear t in
  let leap := InLeapYear t in
  match MonthFromTime t with
  | 0 => d + 1
  | 1 => d - 30
  | 2 => d - 58 - leap
  | 3 => d - 89 - leap
  | 4 => d - 119 - leap
  | 5 => d - 150 - leap
  | 6 => d - 180 - leap
  | 7 => d - 211 - leap
  | 8 => d - 242 - leap
  | 9 => d - 272 - leap
  | 10 => d - 303 - leap
  | _ => d - 333 - leap
  end.

(** The day within its year of the first day of month [m] (0 to 11). *)
Definition monthStart (m leap : Z) : Z :=
  match m with
  | 0 => 0
  | 1 => 31
  | 2 => 59 + leap
  | 3 => 90 + leap
  | 4 => 120 + leap
  | 5 => 151 + leap
  | 6 => 181 + leap
  | 7 => 212 + leap
  | 8 => 243 + leap
  | 9 => 273 + leap
  | 10 => 304 + leap
  | _ => 334 + leap
  end.

(** [MakeDay(year, month, date)]: the day number of the first day of the
    month [month] of [year] (months beyond 0..11 carry into the year), plus
    [date - 1]. *)
Definition MakeDay (year month date : Z) : Z :=
  let ym := year + month / 12 in
  let mn := month mod 12 in
  let leap := if DaysInYear ym =? 366 then 1 else 0 in
  DayFromYear ym + monthStart mn leap + date - 1.

Definition MakeDate (day time : Z) : Z := day * msPerDay + time.

(** [TimeClip]: a time beyond 100,000,000 days from the epoch is [NaN]. *)
Definition TimeClip (time : Z) : option Z :=
  if 8640000000000000 <? Z.abs time then None else Some time.

Section host.

(** The host's local time zone adjustment, [LocalTZA(t, isUTC)]. *)
Variable LocalTZA : Z → bool → Z.

Definition LocalTime (t : Z) : Z := t + LocalTZA t true.
Definition UTC (t : Z) : Z := t - LocalTZA t false.

(** [Date.prototype.getDate] on a valid time value. *)
Definition getDate (tv : Z) : Z := DateFromTime (LocalTime tv).

(** [Date.prototype.setDate(date)] on a valid time value: the new time
    value of the object. *)
Definition setDate (tv : Z) (date : Z) : option Z :=
  let t := LocalTime tv in
  let newDate :=
    MakeDate (MakeDay (YearFromTime t) (MonthFromTime t) date) (TimeWithinDay t) in
  TimeClip (UTC newDate).

End host.

End Date.

(* --------------------------------------------------------------------- *)
(** ** The date of a card ([LocalCard]) *)
(* --------------------------------------------------------------------- *)

(** [char.charCodeAt(0)] for each element of [locale.split("")].  Locale
    identifiers are ASCII, so a character is its own code unit. *)
Fixpoint charCodes (locale : string) : list Z :=
  match locale with
  | EmptyString => []
  | String a rest => Z.of_N (Ascii.N_of_ascii a) :: charCodes rest
  end.

(** [locale.split("").reduce((acc, char) => acc + char.charCodeAt(0), 0)] *)
Definition uniqueOffset (locale : string) : Z :=
  fold_left (λ acc code, Number.add acc code) (charCodes locale) 0.

(** The time value of [dynamicDate] when [formatter.format] receives it:
    [new Date()] at the wall-clock reading [now], then
    [setDate(getDate() + renderKey * 365 + uniqueOffset)]. *)
Definition dynamicDate (LocalTZA : Z → bool → Z)
    (now : Z) (locale : string) (renderKey : Z) : option Z :=
  let date :=
    Number.add (Number.add (Date.getDate LocalTZA now) (Number.mul renderKey 365))
               (uniqueOffset locale) in
  Date.setDate LocalTZA now date.

(** The spec's [hash]: the sum of the character codes of the locale. *)
Definition hash (locale : string) : Z := foldr Z.add 0 (charCodes locale).

(** A host whose local time is UTC. *)
Definition utc_host : Z → bool → Z := λ _ _, 0.

(* --------------------------------------------------------------------- *)
(** ** The benchmark controller *)
(* --------------------------------------------------------------------- *)

(** ["native" | "intlayer"], the two variants (uncached, cached). *)
Inductive BenchmarkType := native | intlayer.

#[global] Instance BenchmarkType_eq_dec : EqDecision BenchmarkType.
Proof. solve_decision. Defined.

(** The values of the six [useState] hooks of [BenchmarkController], as
    of the last render.  A reading of [performance.now()] is a multiple of
    the clock's resolution: times are counted in that unit, as integers,
    and the difference of two readings is taken as exact. *)
Record Hooks := {
  nativeLocale : string;
  intlayerLocale : string;
  nativeRenderKey : Z;
  intlayerRenderKey : Z;
  nativeTime : Z;
  intlayerTime : Z;
}.

(** A call of one of the six setters.  React queues it and applies it at
    the next render; [setNativeRenderKey] and [setIntlayerRenderKey] are
    called with an updater function, the others with a value. *)
Inductive Update :=
  | setNativeLocale (v : string)
  | setIntlayerLocale (v : string)
  | setNativeRenderKey (f : Z → Z)
  | setIntlayerRenderKey (f : Z → Z)
  | setNativeTime (v : Z)
  | setIntlayerTime (v : Z).

(** The mounted component: hook values, the two refs, and the queue of
    setter calls not yet rendered (oldest first). *)
Record Component := {
  hooks : Hooks;
  startTimeRef : Z;
  activeBenchmarkRef : option BenchmarkType;
  queue : list Update;
}.

Definition apply_update (h : Hooks) (u : Update) : Hooks :=
  match u with
  | setNativeLocale v =>
      {| nativeLocale := v; intlayerLocale := intlayerLocale h;
         nativeRenderKey := nativeRenderKey h; intlayerRenderKey := intlayerRenderKey h;
         nativeTime := nativeTime h; intlayerTime := intlayerTime h |}
  | setIntlayerLocale v =>
      {| nativeLocale := nativeLocale h; intlayerLocale := v;
         nativeRenderKey := nativeRenderKey h; intlayerRenderKey := intlayerRenderKey h;
         nativeTime := nativeTime h; intlayerTime := intlayerTime h |}
  | setNativeRenderKey f =>
      {| nativeLocale := nativeLocale h; intlayerLocale := intlayerLocale h;
         nativeRenderKey := f (nativeRenderKey h); intlayerRenderKey := intlayerRenderKey h;
         nativeTime := nativeTime h; intlayerTime := intlayerTime h |}
  | setIntlayerRenderKey f =>
      {| nativeLocale := nativeLocale h; intlayerLocale := intlayerLocale h;
         nativeRenderKey := nativeRenderKey h; intlayerRenderKey := f (intlayerRenderKey h);
         nativeTime := nativeTime h; intlayerTime := intlayerTime h |}
  | setNativeTime v =>
      {| nativeLocale := nativeLocale h; intlayerLocale := intlayerLocale h;
         nativeRenderKey := nativeRenderKey h; intlayerRenderKey := intlayerRenderKey h;
         nativeTime := v; intlayerTime := intlayerTime h |}
  | setIntlayerTime v =>
      {| nativeLocale := nativeLocale h; intlayerLocale := intlayerLocale h;
         nativeRenderKey := nativeRenderKey h; intlayerRenderKey := intlayerRenderKey h;
         nativeTime := nativeTime h; intlayerTime := v |}
  end.

(** The state at mount: [useState("en")] twice, [useState(0)] four times,
    [useRef(0)] and [useRef(null)]. *)
Definition initial : Component :=
  {| hooks := {| nativeLocale := "en"; intlayerLocale := "en";
                 nativeRenderKey := 0; intlayerRenderKey := 0;
                 nativeTime := 0; intlayerTime := 0 |};
     startTimeRef := 0;
     activeBenchmarkRef := None;
     queue := [] |}.

Definition enqueue (us : list Update) (c : Component) : Component :=
  {| hooks := hooks c; startTimeRef := startTimeRef c;
     activeBenchmarkRef := activeBenchmarkRef c; queue := queue c ++ us |}.

(** A render pass: the queued setter calls are applied in order. *)
Definition render (c : Component) : Component :=
  {| hooks := fold_left apply_update (queue c) (hooks c);
     startTimeRef := startTimeRef c;
     activeBenchmarkRef := activeBenchmarkRef c;
     queue := [] |}.

(** [triggerSwitch(type)], with the draw [r] of [Math.random()] and the
    reading [now] of [performance.now()]. *)
Definition triggerSwitch (type : BenchmarkType) (r now : Z) (c : Component) : Component :=
  let nextLocale : string := if Math.random_gt_half r then "fr" else "de" in
  let c1 := {| hooks := hooks c; startTimeRef := now;
               activeBenchmarkRef := Some type; queue := queue c |} in
  match type with
  | native =>
      enqueue [setNativeLocale nextLocale; setNativeRenderKey (λ k, Number.add k 1)] c1
  | intlayer =>
      enqueue [setIntlayerLocale nextLocale; setIntlayerRenderKey (λ k, Number.add k 1)] c1
  end.

(** The callback of [useLayoutEffect] (no dependency list: it runs after
    every commit), with the reading [now] it would take of
    [performance.now()]. *)
Definition useLayoutEffect (now : Z) (c : Component) : Component :=
  if (0 <? startTimeRef c) && bool_decide (is_Some (activeBenchmarkRef c)) then
    let duration := now - startTimeRef c in
    let set :=
      if bool_decide (activeBenchmarkRef c = Some native)
      then setNativeTime duration else setIntlayerTime duration in
    {| hooks := hooks c; startTimeRef := 0; activeBenchmarkRef := None;
       queue := queue c ++ [set] |}
  else c.

(** A commit signal: React renders the queued updates, commits and runs
    the layout effect; a setter called by the effect is rendered and
    committed at once (before paint), after which the effect runs again. *)
Definition commit (now : Z) (c : Component) : Component :=
  let c1 := useLayoutEffect now (render c) in
  match queue c1 with
  | [] => c1
  | _ :: _ => useLayoutEffect now (render c1)
  end.

Inductive Event :=
  | Trigger (type : BenchmarkType) (r now : Z)
  | Commit (now : Z).

Definition step (c : Component) (e : Event) : Component :=
  match e with
  | Trigger type r now => triggerSwitch type r now c
  | Commit now => commit now c
  end.

Definition run (trace : list Event) (c : Component) : Component :=
  fold_left step trace c.

(** What the panel of a variant shows: its run counter, its duration, and
    the locale its section renders with. *)
Definition generation (v : BenchmarkType) (c : Component) : Z :=
  match v with
  | native => nativeRenderKey (hooks c)
  | intlayer => intlayerRenderKey (hooks c)
  end.

Definition lastDuration (v : BenchmarkType) (c : Component) : Z :=
  match v with
  | native => nativeTime (hooks c)
  | intlayer => intlayerTime (hooks c)
  end.

Definition displayLocale (v : BenchmarkType) (c : Component) : string :=
  match v with
  | native => nativeLocale (hooks c)
  | intlayer => intlayerLocale (hooks c)
  end.

(** The setter of the duration of variant [v]. *)
Definition setTime (v : BenchmarkType) (d : Z) : Update :=
  match v with
  | native => setNativeTime d
  | intlayer => setIntlayerTime d
  end.

(** Setter calls that write a duration. *)
Definition writes_time (u : Update) : bool :=
  match u with
  | setNativeTime _ | setIntlayerTime _ => true
  | _ => false
  end.

(** Between events only locale and render-key updates wait in the queue:
    a duration is rendered within the commit that measured it. *)
Definition no_time_queued (c : Component) : Prop :=
  Forall (λ u, writes_time u = false) (queue c).

(** The number of triggers of variant [v] in a trace. *)
Fixpoint triggers (v : BenchmarkType) (trace : list Event) : Z :=
  match trace with
  | [] => 0
  | Trigger type _ _ :: rest =>
      (if bool_decide (type = v) then 1 else 0) + triggers v rest
  | Commit _ :: rest => triggers v rest
  end.


(* --------------------------------------------------------------------- *)
(** ** Traces of the controller *)
(* --------------------------------------------------------------------- *)

(** The reading of the clock an event carries. *)
Definition reading (e : Event) : Z :=
  match e with
  | Trigger _ _ now => now
  | Commit now => now
  end.

(** The clock never runs backwards along a trace that starts at reading
    [t]: [performance.now()] is monotonic. *)
Fixpoint clock_monotone (t : Z) (trace : list Event) : Prop :=
  match trace with
  | [] => True
  | e :: rest => t ≤ reading e ∧ clock_monotone (reading e) rest
  end.

(** The draw of the latest trigger of variant [v] in a trace, if any; [r0]
    is the latest draw seen before the trace. *)
Fixpoint latest_draw (v : BenchmarkType) (r0 : option Z) (trace : list Event) : option Z :=
  match trace with
  | [] => r0
  | Trigger type r _ :: rest =>
      latest_draw v (if bool_decide (type = v) then Some r else r0) rest
  | Commit _ :: rest => latest_draw v r0 rest
  end.

(** The triggers of variant [v] in a trace, everything else left out. *)
Fixpoint own_triggers (v : BenchmarkType) (trace : list Event) : list Event :=
  match trace with
  | [] => []
  | Trigger type r now :: rest =>
      if bool_decide (type = v)
      then Trigger type r now :: own_triggers v rest
      else own_triggers v rest
  | Commit _ :: rest => own_triggers v rest
  end.

(** The other variant. *)
Definition other (v : BenchmarkType) : BenchmarkType :=
  match v with
  | native => intlayer
  | intlayer => native
  end.

(* --------------------------------------------------------------------- *)
(** ** The elements a render returns *)
(* --------------------------------------------------------------------- *)

(** The key of a card, [`${locale}-${index}-${renderKey}`].  A number that
    is an integer below [10^21] in magnitude prints as its decimal digits,
    with a leading [-] when negative. *)
Definition card_key (locale : string) (index : nat) (renderKey : Z) : string :=
  locale +:+ "-" +:+ pretty index +:+ "-" +:+ pretty renderKey.

(** A [<LocalCard .../>] element: its key and its props.  The
    [IntlConstructor] is [globalThis.Intl] for [native] and [CachedIntl]
    for [intlayer]. *)
Record LocalCardElement := {
  element_key : string;
  prop_locale : string;
  prop_displayLocale : string;
  prop_IntlConstructor : BenchmarkType;
  prop_renderKey : Z;
}.

(** The children of [LocalCardList]:
    [localeList.map((locale, index) => <LocalCard key=... />)]. *)
Definition LocalCardList (localeList : list string) (displayLocale : string)
    (IntlConstructor : BenchmarkType) (renderKey : Z) : list LocalCardElement :=
  imap (λ index locale,
          {| element_key := card_key locale index renderKey;
             prop_locale := locale;
             prop_displayLocale := displayLocale;
             prop_IntlConstructor := IntlConstructor;
             prop_renderKey := renderKey |}) localeList.

(** [localeList.map((row, i) => <LocalCardList key={i} localeList={row} />)]
    from index [i] on: each row is read from the store. *)
Fixpoint section_rows (i : nat) (localeList : list ref) (displayLocale : string)
    (IntlConstructor : BenchmarkType) (renderKey : Z)
    : M (list (nat * list LocalCardElement)) :=
  match localeList with
  | [] => mret []
  | row :: rest =>
      xs ← read row;
      rows ← section_rows (S i) rest displayLocale IntlConstructor renderKey;
      mret ((i, LocalCardList xs displayLocale IntlConstructor renderKey) :: rows)
  end.

(** What [LanguageSectionRenderer] returns, its state being the module's
    [arrayOfLocale]: [null] ([None]) for an empty list, else the keyed
    rows. *)
Definition LanguageSectionRenderer (arrayOfLocale : list ref) (displayLocale : string)
    (IntlConstructor : BenchmarkType) (renderKey : Z)
    : M (option (list (nat * list LocalCardElement))) :=
  let localeList := arrayOfLocale in
  if bool_decide (length localeList = 0%nat) then mret None
  else rows ← section_rows 0 localeList displayLocale IntlConstructor renderKey;
       mret (Some rows).

(** The keys of all cards of a section. *)
Definition section_keys (rows : list (nat * list LocalCardElement)) : list string :=
  rows ≫= λ row, element_key <$> row.2.

(** A string without the character [-]. *)
Fixpoint no_dash (s : string) : Prop :=
  match s with
  | EmptyString => True
  | String a rest => a ≠ "-"%char ∧ no_dash rest
  end.

(** The rows [section_rows] returns for allocated batches: row [j] is the
    list of cards of batch [j], and the store is only read. *)
Definition rows_of (w : World) (i : nat) (refs : list ref) (dl : string)
    (ic : BenchmarkType) (k : Z) : list (nat * list LocalCardElement) :=
  imap (λ j b, ((i + j)%nat, LocalCardList (default [] (arrays w !! b)) dl ic k)) refs.


(* ===================================================================== *)
(** * Part II: lemmas and theorems *)
(* ===================================================================== *)

(** Case analysis on every comparison [a <? b] of the goal. *)
Ltac month_cases :=
  repeat (lazymatch goal with
          | |- context [?a <? ?b] => destruct (Z.ltb_spec a b)
          end; cbv iota).

(** ** Numbers *)

Lemma of_Z_small x : Z.abs x < 2 ^ 53 → Number.of_Z x = x.
Proof.
  intros Hx. unfold Number.of_Z.
  destruct (decide (Z.abs x = 0)) as [->|Hnz]; [done|].
  assert (Z.log2 (Z.abs x) < 53) by (apply Z.log2_lt_pow2; lia).
  by rewrite (proj2 (Z.ltb_lt _ _)).
Qed.

Lemma add_one_below k : 0 ≤ k < Number.MAX_EXACT → Number.add k 1 = k + 1.
Proof.
  unfold Number.MAX_EXACT, Number.add. intros Hk.
  destruct (decide (k + 1 = 2 ^ 53)) as [->|]; [done|].
  apply of_Z_small. lia.
Qed.

Lemma add_one_at_limit : Number.add Number.MAX_EXACT 1 = Number.MAX_EXACT.
Proof. reflexivity. Qed.

Lemma add_one_min k :
  0 ≤ k ≤ Number.MAX_EXACT → Number.add k 1 = Z.min (k + 1) Number.MAX_EXACT.
Proof.
  intros Hk. destruct (decide (k = Number.MAX_EXACT)) as [->|].
  - rewrite add_one_at_limit. unfold Number.MAX_EXACT. lia.
  - rewrite add_one_below by lia. lia.
Qed.

(** Rounding moves a number by at most half a step, and not across 0. *)
Lemma round_to_near q x :
  0 < q → 0 ≤ x → 0 ≤ Number.round_to q x ∧ 2 * (Number.round_to q x - x) ≤ q.
Proof.
  intros Hq Hx. unfold Number.round_to.
  pose proof (Z.div_mod x q ltac:(lia)) as Hdm.
  pose proof (Z.mod_pos_bound x q Hq) as Hr.
  assert (0 ≤ x / q) as Hlo by (apply Z.div_pos; lia).
  repeat case_match; nia.
Qed.

Lemma of_Z_near x :
  0 ≤ x → 0 ≤ Number.of_Z x ∧ 2 ^ 53 * (Number.of_Z x - x) ≤ x.
Proof.
  intros Hx. unfold Number.of_Z.
  destruct (Z.ltb_spec (Z.log2 (Z.abs x)) 53) as [He|He]; [lia|].
  rewrite Z.abs_eq in * by done.
  assert (0 < x) as Hpos.
  { destruct (decide (x = 0)) as [->|]; [done|lia]. }
  pose proof (Z.log2_spec x Hpos) as [Hlog _].
  set (e := Z.log2 x) in *.
  assert (2 ^ e = 2 ^ 52 * 2 ^ (e - 52)) as Hsplit.
  { rewrite <- Z.pow_add_r by lia. f_equal. lia. }
  assert (0 < 2 ^ (e - 52)) as Hq by (apply Z.pow_pos_nonneg; lia).
  destruct (round_to_near (2 ^ (e - 52)) x Hq Hx) as [H0 Hnear].
  split; [done|]. nia.
Qed.

(** The index drawn for [n] slots is one of the slots. *)
Lemma floor_random_times_range r n :
  0 < n → 0 ≤ Math.floor_random_times r n < n.
Proof.
  intros Hn. unfold Math.floor_random_times, Math.numerator.
  assert (0 ≤ r mod 2 ^ 53 < 2 ^ 53) as Hr by (apply Z.mod_pos_bound; lia).
  set (p := r mod 2 ^ 53) in *.
  destruct (of_Z_near (p * n)) as [H0 Hnear]; [nia|].
  split.
  - apply Z.div_pos; lia.
  - apply Z.div_lt_upper_bound; [lia|]. nia.
Qed.

(** ** The store *)

Lemma bind_run {A B} (m : M A) (f : A → M B) w :
  (m ≫= f) w = match m w with Some (a, w') => f a w' | None => None end.
Proof. reflexivity. Qed.

Lemma get_run a i w xs x :
  arrays w !! a = Some xs → xs !! i = Some x → get a i w = Some (x, w).
Proof. intros Ha Hi. unfold get. by rewrite Ha, Hi. Qed.

Lemma put_run a i x w xs :
  arrays w !! a = Some xs → (i < length xs)%nat →
  put a i x w
  = Some (tt, {| arrays := <[a := <[i := x]> xs]> (arrays w); draws := draws w |}).
Proof. intros Ha Hi. unfold put. by rewrite Ha, bool_decide_eq_true_2. Qed.

Lemma read_run a w xs : arrays w !! a = Some xs → read a w = Some (xs, w).
Proof. intros Ha. unfold read. by rewrite Ha. Qed.

Lemma new_array_fresh w : arrays w !! fresh (dom (arrays w)) = None.
Proof. apply not_elem_of_dom, is_fresh. Qed.

Section shuffle.

(** The host's draws, and a relation [R] between an element and where it
    came from: a shuffle moves both alike. *)
Context (random : nat → Z) {B : Type} (R : B → string → Prop).

(** The loop permutes the array it is given and touches nothing else. *)
Lemma shuffle_loop_spec a i w xs σ :
  arrays w !! a = Some xs →
  (i = 0 ∨ i < length xs)%nat →
  Forall2 R σ xs →
  ∃ xs' σ',
    shuffle_loop random a i w
    = Some (tt, {| arrays := <[a := xs']> (arrays w); draws := (draws w + i)%nat |})
    ∧ xs' ≡ₚ xs ∧ σ' ≡ₚ σ ∧ Forall2 R σ' xs'.
Proof.
  revert w xs σ. induction i as [|i IH]; intros w xs σ Ha Hi HR.
  { exists xs, σ. split; [|done]. destruct w as [arr n]; simpl in *.
    by rewrite insert_id, Nat.add_0_r. }
  destruct Hi as [|Hi]; [done|].
  set (j := Z.to_nat (Math.floor_random_times (random (draws w)) (Z.of_nat (S i) + 1))).
  assert (j < length xs)%nat as Hj.
  { pose proof (floor_random_times_range (random (draws w)) (Z.of_nat (S i) + 1)).
    unfold j. lia. }
  destruct (lookup_lt_is_Some_2 xs j Hj) as [xj Hxj].
  destruct (lookup_lt_is_Some_2 xs (S i) Hi) as [xi Hxi].
  destruct (Forall2_lookup_r _ _ _ _ _ HR Hxj) as (sj & Hsj & HRj).
  destruct (Forall2_lookup_r _ _ _ _ _ HR Hxi) as (si & Hsi & HRi).
  set (w1 := {| arrays := arrays w; draws := S (draws w) |}).
  set (xs1 := <[j := xi]> (<[S i := xj]> xs)).
  set (w3 := {| arrays := <[a := xs1]> (arrays w); draws := S (draws w) |}).
  destruct (IH w3 xs1 (<[j := si]> (<[S i := sj]> σ))) as (xs' & σ' & Hrun & Hp & Hq & HR').
  { simpl. apply lookup_insert_eq. }
  { right. unfold xs1. rewrite !length_insert. lia. }
  { unfold xs1. by repeat apply Forall2_insert. }
  exists xs', σ'. split; [|split; [|split]]; [| | |done].
  - cbn [shuffle_loop]. rewrite bind_run. unfold Math_random at 1. fold w1. fold j.
    rewrite bind_run, (get_run _ _ w1 xs xj) by done.
    rewrite bind_run, (get_run _ _ w1 xs xi) by done.
    rewrite bind_run, (put_run _ _ _ w1 xs) by done.
    rewrite bind_run, (put_run _ _ _ _ (<[S i := xj]> xs));
      [|apply lookup_insert_eq|by rewrite length_insert].
    simpl arrays. simpl draws. rewrite insert_insert_eq. fold xs1. fold w3.
    rewrite Hrun. simpl. rewrite insert_insert_eq. do 3 f_equal. lia.
  - rewrite Hp. unfold xs1. by apply Permutation_insert_swap.
  - rewrite Hq. by apply Permutation_insert_swap.
Qed.

Lemma new_array_run xs w :
  new_array xs w
  = Some (fresh (dom (arrays w)),
          {| arrays := <[fresh (dom (arrays w)) := xs]> (arrays w); draws := draws w |}).
Proof. reflexivity. Qed.

Lemma slice_from_0 len e : 0 ≤ len → slice_bound len e - slice_bound len 0 = slice_bound len e
                                      ∧ slice_bound len 0 = 0.
Proof. unfold slice_bound. simpl. lia. Qed.

Lemma take_all_if {A} (l : list A) (b : bool) (n : nat) :
  (if b then take n l else l) = take (if b then n else length l) l.
Proof. destruct b; [done|]. by rewrite firstn_all. Qed.

(** [shuffleArray]: it returns a new array that holds the first [kept]
    elements of a permutation of the argument's contents; every array of
    the store it was called in, the argument included, is left as it was;
    it makes one draw for each element but the first. *)
Lemma shuffleArray_spec array limit w xs σ :
  arrays w !! array = Some xs →
  Forall2 R σ xs →
  ∃ result w' shuffled σ',
    shuffleArray random array limit w = Some (result, w')
    ∧ arrays w ⊆ arrays w'
    ∧ arrays w !! result = None
    ∧ arrays w' !! result = Some (take (kept (length xs) limit) shuffled)
    ∧ shuffled ≡ₚ xs ∧ σ' ≡ₚ σ ∧ Forall2 R σ' shuffled
    ∧ draws w' = (draws w + (length xs - 1))%nat.
Proof.
  intros Ha HR.
  set (s := fresh (dom (arrays w))).
  set (w1 := {| arrays := <[s := xs]> (arrays w); draws := draws w |}).
  assert (arrays w !! s = None) as Hs by apply new_array_fresh.
  destruct (shuffle_loop_spec s (Z.to_nat (Z.of_nat (length xs) - 1)) w1 xs σ)
    as (shuffled & σ' & Hloop & Hp & Hq & HR'); [apply lookup_insert_eq|lia|done|].
  simpl in Hloop. rewrite insert_insert_eq in Hloop.
  set (w2 := {| arrays := <[s := shuffled]> (arrays w);
                draws := (draws w + Z.to_nat (Z.of_nat (length xs) - 1))%nat |}) in *.
  assert (length shuffled = length xs) as Hlen by by rewrite Hp.
  assert (shuffleArray random array limit w
          = (if truthy limit then slice s 0 (default 0 limit) else mret s) w2) as Hrun.
  { unfold shuffleArray. rewrite bind_run, (read_run _ _ xs) by done.
    rewrite bind_run, new_array_run. fold s. fold w1.
    by rewrite bind_run, Hloop. }
  unfold kept. destruct (truthy limit) eqn:Hl.
  - set (r := fresh (dom (arrays w2))).
    assert (arrays w2 !! r = None) as Hr by apply new_array_fresh.
    assert (arrays w !! r = None) as Hr'.
    { simpl in Hr. apply lookup_insert_None in Hr. tauto. }
    exists r, {| arrays := <[r := take (Z.to_nat (slice_bound (Z.of_nat (length xs))
                                                   (default 0 limit))) shuffled]> (arrays w2);
                 draws := draws w2 |}, shuffled, σ'.
    split; [|split; [|split; [|split; [|split; [|split; [|split]]]]]]; try done.
    + rewrite Hrun. unfold slice. rewrite bind_run, (read_run _ _ shuffled)
        by apply lookup_insert_eq.
      rewrite new_array_run. fold r. rewrite Hlen.
      destruct (slice_from_0 (Z.of_nat (length xs)) (default 0 limit)) as [-> ->]; [lia|].
      done.
    + simpl. etrans; [|by apply insert_subseteq]. by apply insert_subseteq.
    + simpl. apply lookup_insert_eq.
    + simpl. lia.
  - exists s, w2, shuffled, σ'.
    split; [|split; [|split; [|split; [|split; [|split; [|split]]]]]]; try done.
    + simpl. by apply insert_subseteq.
    + simpl. rewrite lookup_insert_eq. by rewrite <- Hlen, firstn_all.
    + simpl. lia.
Qed.

(** Twenty calls (or [n]) in a row: each returns an array of its own, and
    the arrays returned earlier are not touched by the later calls. *)
Lemma array_fill_map_shuffleArray allLocales limit n w xs σ :
  arrays w !! allLocales = Some xs →
  Forall2 R σ xs →
  ∃ batches w',
    array_fill_map n (shuffleArray random allLocales limit) w = Some (batches, w')
    ∧ arrays w ⊆ arrays w'
    ∧ length batches = n
    ∧ NoDup batches
    ∧ Forall (λ b, arrays w !! b = None
                   ∧ ∃ shuffled σ',
                       arrays w' !! b = Some (take (kept (length xs) limit) shuffled)
                       ∧ shuffled ≡ₚ xs ∧ σ' ≡ₚ σ ∧ Forall2 R σ' shuffled) batches.
Proof.
  intros Ha HR. revert w Ha. induction n as [|n IH]; intros w Ha.
  { exists [], w. repeat split; try done; constructor. }
  destruct (shuffleArray_spec allLocales limit w xs σ Ha HR)
    as (b & w1 & shuffled & σ' & Hrun & Hsub & Hfresh & Hb & Hp & Hq & HR' & _).
  destruct (IH w1) as (bs & w' & Hruns & Hsub' & Hlen & Hnd & Hbs).
  { by eapply lookup_weaken. }
  exists (b :: bs), w'. split; [|split; [|split; [|split]]].
  - cbn [array_fill_map]. rewrite bind_run, Hrun, bind_run, Hruns. done.
  - by etrans.
  - simpl. by rewrite Hlen.
  - constructor; [|done]. intros Hin.
    rewrite Forall_forall in Hbs. destruct (Hbs b Hin) as [Hnone _]. congruence.
  - constructor.
    + split; [done|]. exists shuffled, σ'. split; [|done]. by eapply lookup_weaken.
    + eapply Forall_impl; [done|]. intros b' [Hnone Hrest]. split; [|done].
      by eapply lookup_weaken_None.
Qed.

End shuffle.

Lemma drawn_from_seq (catalog : list string) :
  drawn_from catalog (seq 0 (length catalog)) catalog.
Proof.
  unfold drawn_from. apply Forall2_same_length_lookup. split; [by rewrite length_seq|].
  intros i p x Hp Hx. apply lookup_seq in Hp as [-> _]. done.
Qed.


(** The data preparation, in any store: [allLocales] holds the catalog
    before and after the twenty shuffles, every array that existed is left
    as it was, and each of the twenty batches is an array of its own
    holding the first [kept] elements of a shuffle of the catalog. *)
Lemma data_prep_spec random ALL_LOCALES w :
  ∃ allLocales arrayOfLocale w',
    data_prep random ALL_LOCALES w = Some ((allLocales, arrayOfLocale), w')
    ∧ arrays w ⊆ arrays w'
    ∧ arrays w' !! allLocales = Some ALL_LOCALES
    ∧ length arrayOfLocale = 20%nat
    ∧ NoDup (allLocales :: arrayOfLocale)
    ∧ Forall (λ b, ∃ shuffled positions,
                arrays w' !! b
                = Some (take (kept (length ALL_LOCALES) (Some NUM_OF_ITEMS)) shuffled)
                ∧ shuffled ≡ₚ ALL_LOCALES
                ∧ positions ≡ₚ seq 0 (length ALL_LOCALES)
                ∧ drawn_from ALL_LOCALES positions shuffled) arrayOfLocale.
Proof.
  set (a := fresh (dom (arrays w))).
  set (w1 := {| arrays := <[a := ALL_LOCALES]> (arrays w); draws := draws w |}).
  assert (arrays w !! a = None) as Hfresh by apply new_array_fresh.
  destruct (array_fill_map_shuffleArray random (λ p x, ALL_LOCALES !! p = Some x)
              a (Some NUM_OF_ITEMS) 20 w1 ALL_LOCALES (seq 0 (length ALL_LOCALES)))
    as (bs & w' & Hrun & Hsub & Hlen & Hnd & Hbs).
  { apply lookup_insert_eq. }
  { apply drawn_from_seq. }
  exists a, bs, w'. split; [|split; [|split; [|split; [|split]]]].
  - unfold data_prep. rewrite bind_run, new_array_run. fold a. fold w1.
    by rewrite bind_run, Hrun.
  - etrans; [|done]. by apply insert_subseteq.
  - eapply lookup_weaken; [|done]. apply lookup_insert_eq.
  - done.
  - constructor; [|done]. intros Hin. rewrite Forall_forall in Hbs.
    destruct (Hbs a Hin) as [Hnone _]. simpl in Hnone.
    by rewrite lookup_insert_eq in Hnone.
  - eapply Forall_impl; [done|]. intros b [_ (shuffled & σ' & Hb & Hp & Hq & HR)].
    by exists shuffled, σ'.
Qed.



(** C7, as the code has it.  With fewer than [NUM_OF_ITEMS] locales in the
    catalog the data preparation raises nothing: it returns its twenty
    arrays, each a whole shuffle of the catalog, shorter than
    [NUM_OF_ITEMS]. *)
Theorem oversized_batch_returns_short_batches
    (random : nat → Z) (ALL_LOCALES : list string) (w : World) :
  Z.of_nat (length ALL_LOCALES) < NUM_OF_ITEMS →
  ∃ allLocales arrayOfLocale w',
    data_prep random ALL_LOCALES w = Some ((allLocales, arrayOfLocale), w')
    ∧ length arrayOfLocale = 20%nat
    ∧ Forall (λ b, ∃ batch,
                arrays w' !! b = Some batch
                ∧ batch ≡ₚ ALL_LOCALES
                ∧ Z.of_nat (length batch) < NUM_OF_ITEMS) arrayOfLocale.
Proof.
  intros Hsize.
  destruct (data_prep_spec random ALL_LOCALES w)
    as (a & bs & w' & Hrun & Hsub & Ha & Hlen & Hnd & Hbs).
  exists a, bs, w'. repeat (split; [done|]).
  eapply Forall_impl; [done|]. intros b (shuffled & σ & Hb & Hp & Hq & Hd).
  assert (length shuffled = length ALL_LOCALES) as Hl by by rewrite Hp.
  rewrite firstn_all2 in Hb.
  - exists shuffled. by rewrite Hl.
  - unfold kept, slice_bound, NUM_OF_ITEMS in *. simpl. lia.
Qed.

Lemma oversized_batch_returns_short_batches_witness :
  ∃ allLocales arrayOfLocale w',
    data_prep (λ _, 0) ["en"; "fr"; "de"] empty_world
    = Some ((allLocales, arrayOfLocale), w')
    ∧ length arrayOfLocale = 20%nat
    ∧ Forall (λ b, ∃ batch,
                arrays w' !! b = Some batch
                ∧ batch ≡ₚ ["en"; "fr"; "de"]
                ∧ Z.of_nat (length batch) < NUM_OF_ITEMS) arrayOfLocale.
Proof.
  apply (oversized_batch_returns_short_batches (λ _, 0) ["en"; "fr"; "de"] empty_world).
  reflexivity.
Defined.

(** C7, counterexample.  A catalog of three locales and a batch size of 50:
    the data preparation returns (no error), and each of its twenty batches
    holds three locales. *)
Lemma oversized_batch_is_not_an_error :
  ∃ allLocales arrayOfLocale w',
    data_prep (λ _, 0) ["en"; "fr"; "de"] empty_world
    = Some ((allLocales, arrayOfLocale), w')
    ∧ contents w' arrayOfLocale = replicate 20 (Some ["fr"; "de"; "en"]).
Proof.
  eexists _, _, _. split; [vm_compute; reflexivity|]. vm_compute. reflexivity.
Qed.

(** C10, as the code has it.  A limit of 0 is falsy: the call is the call
    without a limit, and returns the whole shuffled array.  Every other
    integer limit reaches [slice(0, limit)] and may truncate: a positive
    one keeps the first [limit] elements (all, if there are fewer), a
    negative one drops the last [-limit] elements. *)
Theorem shuffleArray_limit (random : nat → Z) (array : ref) (w : World) (xs : list string) :
  arrays w !! array = Some xs →
  shuffleArray random array (Some 0) w = shuffleArray random array None w
  ∧ (∃ result w' ys,
       shuffleArray random array (Some 0) w = Some (result, w')
       ∧ arrays w' !! result = Some ys
       ∧ ys ≡ₚ xs
       ∧ length ys = length xs)
  ∧ (∀ limit, limit ≠ 0 →
       ∃ result w' shuffled,
         shuffleArray random array (Some limit) w = Some (result, w')
         ∧ shuffled ≡ₚ xs
         ∧ arrays w' !! result
           = Some (take (Z.to_nat (if 0 <? limit
                                   then Z.min limit (Z.of_nat (length xs))
                                   else Z.max (Z.of_nat (length xs) + limit) 0))
                        shuffled)).
Proof.
  intros Ha. split; [done|]. split.
  - destruct (shuffleArray_spec random (λ _ _, True) array (Some 0) w xs xs Ha)
      as (r & w' & shuffled & σ' & Hrun & _ & _ & Hr & Hp & _).
    { by apply Forall_Forall2_diag, Forall_true. }
    assert (length shuffled = length xs) as Hlen by by rewrite Hp.
    exists r, w', shuffled. unfold kept in Hr. simpl in Hr.
    by rewrite <- Hlen, firstn_all in Hr.
  - intros limit Hl.
    destruct (shuffleArray_spec random (λ _ _, True) array (Some limit) w xs xs Ha)
      as (r & w' & shuffled & σ' & Hrun & _ & _ & Hr & Hp & _).
    { by apply Forall_Forall2_diag, Forall_true. }
    exists r, w', shuffled. split; [done|]. split; [done|].
    rewrite Hr. do 2 f_equal. unfold kept, truthy, slice_bound. simpl.
    rewrite (proj2 (Z.eqb_neq limit 0)) by done. simpl.
    destruct (Z.ltb_spec 0 limit), (Z.ltb_spec limit 0); try lia; done.
Qed.

Lemma shuffleArray_limit_witness :
  shuffleArray (λ _, 0) 1%positive (Some 0)
    {| arrays := {[ 1%positive := ["a"; "b"; "c"] ]}; draws := 0 |}
  = shuffleArray (λ _, 0) 1%positive None
      {| arrays := {[ 1%positive := ["a"; "b"; "c"] ]}; draws := 0 |}
  ∧ (∃ result w' ys,
       shuffleArray (λ _, 0) 1%positive (Some 0)
         {| arrays := {[ 1%positive := ["a"; "b"; "c"] ]}; draws := 0 |}
       = Some (result, w')
       ∧ arrays w' !! result = Some ys
       ∧ ys ≡ₚ ["a"; "b"; "c"]
       ∧ length ys = length ["a"; "b"; "c"])
  ∧ (∀ limit, limit ≠ 0 →
       ∃ result w' shuffled,
         shuffleArray (λ _, 0) 1%positive (Some limit)
           {| arrays := {[ 1%positive := ["a"; "b"; "c"] ]}; draws := 0 |}
         = Some (result, w')
         ∧ shuffled ≡ₚ ["a"; "b"; "c"]
         ∧ arrays w' !! result
           = Some (take (Z.to_nat (if 0 <? limit
                                   then Z.min limit (Z.of_nat (length ["a"; "b"; "c"]))
                                   else Z.max (Z.of_nat (length ["a"; "b"; "c"]) + limit) 0))
                        shuffled)).
Proof.
  apply (shuffleArray_limit (λ _, 0) 1%positive
           {| arrays := {[ 1%positive := ["a"; "b"; "c"] ]}; draws := 0 |}
           ["a"; "b"; "c"]).
  reflexivity.
Defined.

(** C10, counterexample.  A limit of -1 is not strictly positive, and it
    truncates: of three elements the call returns two. *)
Lemma negative_limit_truncates :
  call_shuffleArray (λ _, 0) ["a"; "b"; "c"] (Some (-1))
  = Some (["b"; "c"], ["a"; "b"; "c"])
  ∧ call_shuffleArray (λ _, 0) ["a"; "b"; "c"] None
    = Some (["b"; "c"; "a"], ["a"; "b"; "c"]).
Proof. split; vm_compute; reflexivity. Qed.

(** ** Time values *)

Lemma DayFromYear_step y :
  Date.DayFromYear (y + 1) = Date.DayFromYear y + Date.DaysInYear y.
Proof.
  unfold Date.DayFromYear, Date.DaysInYear.
  repeat match goal with
         | |- context [?a =? ?b] => destruct (Z.eqb_spec a b); simpl
         end;
    Z.div_mod_to_equations; lia.
Qed.

Lemma DaysInYear_cases y : Date.DaysInYear y = 365 ∨ Date.DaysInYear y = 366.
Proof.
  unfold Date.DaysInYear.
  repeat match goal with
         | |- context [?a =? ?b] => destruct (Z.eqb_spec a b); simpl
         end; auto.
Qed.

(** [YearFromTime] is the year ECMA-262 asks for. *)
Lemma YearFromTime_spec t :
  Date.DayFromYear (Date.YearFromTime t) ≤ Date.Day t
  < Date.DayFromYear (Date.YearFromTime t + 1).
Proof.
  unfold Date.YearFromTime. generalize (Date.Day t) as d. intros d.
  set (y := 1970 + 400 * d / 146097).
  destruct (Z.leb_spec (Date.DayFromYear (y + 1)) d) as [H1|H1];
    [|destruct (Z.leb_spec (Date.DayFromYear y) d) as [H2|H2]].
  - split; [done|]. unfold Date.DayFromYear in *. subst y.
    Z.div_mod_to_equations. lia.
  - done.
  - replace (y - 1 + 1) with y by lia. split; [|done].
    unfold Date.DayFromYear in *. subst y. Z.div_mod_to_equations. lia.
Qed.

Lemma YearFromTime_TimeFromYear t :
  Date.TimeFromYear (Date.YearFromTime t) ≤ t
  < Date.TimeFromYear (Date.YearFromTime t + 1).
Proof.
  pose proof (YearFromTime_spec t) as Hy. unfold Date.TimeFromYear.
  revert Hy. generalize (Date.DayFromYear (Date.YearFromTime t)).
  generalize (Date.DayFromYear (Date.YearFromTime t + 1)).
  unfold Date.Day, Date.msPerDay. intros d1 d0 Hy.
  Z.div_mod_to_equations. lia.
Qed.

Lemma InLeapYear_cases t :
  (Date.InLeapYear t = 0 ∧ Date.DaysInYear (Date.YearFromTime t) = 365)
  ∨ (Date.InLeapYear t = 1 ∧ Date.DaysInYear (Date.YearFromTime t) = 366).
Proof.
  unfold Date.InLeapYear.
  destruct (DaysInYear_cases (Date.YearFromTime t)) as [-> | ->]; auto.
Qed.

Lemma DayWithinYear_range t :
  0 ≤ Date.DayWithinYear t < 365 + Date.InLeapYear t.
Proof.
  unfold Date.DayWithinYear.
  pose proof (YearFromTime_spec t) as Hy.
  rewrite DayFromYear_step in Hy.
  destruct (InLeapYear_cases t) as [[-> Hd]|[-> Hd]]; lia.
Qed.

Lemma MonthFromTime_range t : 0 ≤ Date.MonthFromTime t ≤ 11.
Proof. unfold Date.MonthFromTime. month_cases; lia. Qed.

Lemma DateFromTime_range t : 1 ≤ Date.DateFromTime t ≤ 31.
Proof.
  unfold Date.DateFromTime, Date.MonthFromTime.
  pose proof (DayWithinYear_range t) as Hd.
  destruct (InLeapYear_cases t) as [[Hl _]|[Hl _]]; rewrite Hl in *;
    month_cases; lia.
Qed.

(** A date is the day within its month: the two tables of ECMA-262 agree. *)
Lemma DateFromTime_monthStart t :
  Date.DateFromTime t
  = Date.DayWithinYear t
    - Date.monthStart (Date.MonthFromTime t) (Date.InLeapYear t) + 1.
Proof.
  unfold Date.DateFromTime, Date.MonthFromTime.
  month_cases; simpl; lia.
Qed.

(** [setDate(getDate() + n)] moves a date by [n] days: days past the end
    of the month carry into the next months and years. *)
Lemma MakeDay_same_month t n :
  Date.MakeDay (Date.YearFromTime t) (Date.MonthFromTime t) (Date.DateFromTime t + n)
  = Date.Day t + n.
Proof.
  pose proof (MonthFromTime_range t) as Hm.
  unfold Date.MakeDay.
  rewrite Z.div_small, Z.mod_small, Z.add_0_r by lia.
  rewrite DateFromTime_monthStart. unfold Date.DayWithinYear.
  fold (Date.InLeapYear t). lia.
Qed.

Lemma Day_TimeWithinDay t :
  Date.MakeDate (Date.Day t) (Date.TimeWithinDay t) = t.
Proof.
  unfold Date.MakeDate, Date.Day, Date.TimeWithinDay, Date.msPerDay.
  Z.div_mod_to_equations. lia.
Qed.

Lemma setDate_getDate_plus LocalTZA tv n :
  Date.setDate LocalTZA tv (Date.getDate LocalTZA tv + n)
  = Date.TimeClip
      (Date.UTC LocalTZA (Date.LocalTime LocalTZA tv + n * Date.msPerDay)).
Proof.
  unfold Date.setDate, Date.getDate. rewrite MakeDay_same_month.
  do 2 f_equal. rewrite <- (Day_TimeWithinDay (Date.LocalTime LocalTZA tv)) at 3.
  unfold Date.MakeDate. lia.
Qed.

(** ** The date of a card *)

Lemma charCodes_range locale : Forall (λ c, 0 ≤ c < 256) (charCodes locale).
Proof.
  induction locale as [|a rest IH]; simpl; constructor; [|done].
  pose proof (Ascii.N_ascii_bounded a). lia.
Qed.

Lemma hash_nonneg locale : 0 ≤ hash locale.
Proof.
  unfold hash. induction (charCodes_range locale) as [|c cs Hc _ IH]; simpl; lia.
Qed.

Lemma fold_add_exact cs acc :
  Forall (λ c, 0 ≤ c) cs → 0 ≤ acc → acc + foldr Z.add 0 cs < 2 ^ 53 →
  fold_left (λ acc code, Number.add acc code) cs acc = acc + foldr Z.add 0 cs.
Proof.
  intros Hcs. revert acc. induction Hcs as [|c cs Hc Hcs IH]; intros acc Hacc Hlt; simpl in *.
  { lia. }
  assert (0 ≤ foldr Z.add 0 cs) by (clear -Hcs; induction Hcs; simpl; lia).
  unfold Number.add at 2. rewrite of_Z_small by lia.
  rewrite IH by lia. lia.
Qed.

(** Below [2^53] the sum of [uniqueOffset] is exact: it is the spec's
    [hash]. *)
Lemma uniqueOffset_hash locale : hash locale < 2 ^ 53 → uniqueOffset locale = hash locale.
Proof.
  intros Hlt. unfold uniqueOffset, hash in *. rewrite fold_add_exact; [done| |done|done].
  eapply Forall_impl; [apply charCodes_range|]. simpl. lia.
Qed.

Lemma dynamicDate_exact LocalTZA now locale renderKey :
  0 ≤ renderKey → 365 * renderKey + hash locale + 31 < 2 ^ 53 →
  dynamicDate LocalTZA now locale renderKey
  = Date.TimeClip
      (Date.UTC LocalTZA
         (Date.LocalTime LocalTZA now + (365 * renderKey + hash locale) * Date.msPerDay)).
Proof.
  intros Hk Hlt. pose proof (hash_nonneg locale) as Hh.
  pose proof (DateFromTime_range (Date.LocalTime LocalTZA now)) as Hd.
  unfold dynamicDate. rewrite uniqueOffset_hash by lia.
  unfold Number.add, Number.mul, Date.getDate in *.
  rewrite (of_Z_small (renderKey * 365)) by lia.
  rewrite (of_Z_small (_ + renderKey * 365)) by lia.
  rewrite of_Z_small by lia.
  rewrite <- Z.add_assoc. fold (Date.getDate LocalTZA now).
  rewrite setDate_getDate_plus. do 3 f_equal. lia.
Qed.

(** C6, as the code has it.  For a generation [renderKey ≥ 0] whose offset
    [365 * renderKey + hash locale] is small enough for number arithmetic to
    be exact, [dynamicDate] is the local wall-clock time shifted forward by
    exactly that many days, converted to an instant and clipped: beyond
    100,000,000 days from the epoch the date is invalid.  [uniqueOffset] is
    the sum of the character codes.  In a host with a constant UTC offset,
    and while the shifted instant is in range, the instant is the clock
    reading plus that many days of 86,400,000 ms. *)
Theorem offset_formula (LocalTZA : Z → bool → Z) (now : Z) (locale : string) (renderKey : Z) :
  0 ≤ renderKey →
  365 * renderKey + hash locale + 31 < 2 ^ 53 →
  uniqueOffset locale = hash locale
  ∧ dynamicDate LocalTZA now locale renderKey
    = Date.TimeClip
        (Date.UTC LocalTZA
           (Date.LocalTime LocalTZA now
            + (365 * renderKey + hash locale) * Date.msPerDay))
  ∧ ∀ tza, (∀ t isUTC, LocalTZA t isUTC = tza) →
      Z.abs (now + (365 * renderKey + hash locale) * Date.msPerDay)
        ≤ 8640000000000000 →
      dynamicDate LocalTZA now locale renderKey
      = Some (now + (365 * renderKey + hash locale) * Date.msPerDay).
Proof.
  intros Hk Hlt. pose proof (hash_nonneg locale) as Hh.
  split; [apply uniqueOffset_hash; lia|].
  rewrite dynamicDate_exact by done. split; [done|].
  intros tza Htza Hrange. unfold Date.UTC, Date.LocalTime. rewrite !Htza.
  unfold Date.TimeClip.
  replace (now + tza + (365 * renderKey + hash locale) * Date.msPerDay - tza)
    with (now + (365 * renderKey + hash locale) * Date.msPerDay) by lia.
  by rewrite (proj2 (Z.ltb_ge _ _)).
Qed.

Lemma offset_formula_witness :
  uniqueOffset "fr" = hash "fr"
  ∧ dynamicDate utc_host 1793613600000 "fr" 2
    = Date.TimeClip
        (Date.UTC utc_host
           (Date.LocalTime utc_host 1793613600000
            + (365 * 2 + hash "fr") * Date.msPerDay))
  ∧ ∀ tza, (∀ t isUTC, utc_host t isUTC = tza) →
      Z.abs (1793613600000 + (365 * 2 + hash "fr") * Date.msPerDay)
        ≤ 8640000000000000 →
      dynamicDate utc_host 1793613600000 "fr" 2
      = Some (1793613600000 + (365 * 2 + hash "fr") * Date.msPerDay).
Proof. apply (offset_formula utc_host 1793613600000 "fr" 2); vm_compute; done. Defined.

(** C6, counterexample.  On 2 November 2026, 10:00 UTC, at generation
    300000 the card of locale fr asks for a shift of 109,500,216 days:
    [setDate] leaves an invalid date, not the clock reading shifted by
    that many days. *)
Lemma offset_formula_invalid_date :
  365 * 300000 + hash "fr" = 109500216
  ∧ dynamicDate utc_host 1793613600000 "fr" 300000 = None
  ∧ dynamicDate utc_host 1793613600000 "fr" 300000
    ≠ Some (1793613600000 + (365 * 300000 + hash "fr") * Date.msPerDay).
Proof.
  split; [reflexivity|].
  assert (dynamicDate utc_host 1793613600000 "fr" 300000 = None) as ->
    by (vm_compute; reflexivity).
  split; [reflexivity|discriminate].
Qed.

(** C5, as the code has it.  The instant is computed from the wall-clock
    reading of [new Date()] as well as from the locale and the generation.
    In a host with a constant UTC offset, two evaluations for the same
    locale and generation (in the range where number arithmetic is exact),
    taken at clock readings [now1] and [now2], yield instants that differ by
    exactly [now2 - now1]: they agree if and only if the clock readings
    agree. *)
Theorem instant_follows_clock (tza now1 now2 : Z) (locale : string) (renderKey u1 u2 : Z) :
  0 ≤ renderKey →
  365 * renderKey + hash locale + 31 < 2 ^ 53 →
  dynamicDate (λ _ _, tza) now1 locale renderKey = Some u1 →
  dynamicDate (λ _ _, tza) now2 locale renderKey = Some u2 →
  u2 - u1 = now2 - now1 ∧ (u1 = u2 ↔ now1 = now2).
Proof.
  intros Hk Hlt. rewrite !dynamicDate_exact by done.
  unfold Date.TimeClip, Date.UTC, Date.LocalTime.
  repeat case_match; intros [= <-] [= <-]; lia.
Qed.

Lemma instant_follows_clock_witness :
  50198401000 - 50198400000 = 1000 - 0 ∧ (50198400000 = 50198401000 ↔ 0 = 1000).
Proof.
  apply (instant_follows_clock 0 0 1000 "fr" 1 50198400000 50198401000);
    [lia | vm_compute; done | reflexivity | reflexivity].
Defined.

(** C5, counterexample.  Same locale and generation, clock readings one
    second apart, in a UTC host: the two instants differ. *)
Lemma instant_differs_with_clock :
  dynamicDate utc_host 0 "fr" 1 = Some 50198400000
  ∧ dynamicDate utc_host 1000 "fr" 1 = Some 50198401000
  ∧ dynamicDate utc_host 0 "fr" 1 ≠ dynamicDate utc_host 1000 "fr" 1.
Proof.
  split; [vm_compute; reflexivity|]. split; [vm_compute; reflexivity|].
  vm_compute. discriminate.
Qed.

(** ** The controller: rendering *)

Lemma hooks_render_enqueue us c :
  hooks (render (enqueue us c)) = fold_left apply_update us (hooks (render c)).
Proof. unfold render, enqueue; simpl. apply fold_left_app. Qed.

Lemma render_no_queue c : queue c = [] → render c = c.
Proof. destruct c as [h s a q]; simpl. by intros ->. Qed.

Lemma useLayoutEffect_closed now c :
  startTimeRef c ≤ 0 ∨ activeBenchmarkRef c = None → useLayoutEffect now c = c.
Proof.
  intros [Hs|Ha]; unfold useLayoutEffect.
  - by rewrite (proj2 (Z.ltb_ge 0 (startTimeRef c))).
  - rewrite Ha, bool_decide_eq_false_2; [by rewrite andb_false_r|].
    by intros [? ?].
Qed.

Lemma useLayoutEffect_open now c v :
  0 < startTimeRef c → activeBenchmarkRef c = Some v →
  useLayoutEffect now c
  = {| hooks := hooks c; startTimeRef := 0; activeBenchmarkRef := None;
       queue := queue c ++ [setTime v (now - startTimeRef c)] |}.
Proof.
  intros Hs Ha. unfold useLayoutEffect.
  rewrite (proj2 (Z.ltb_lt 0 (startTimeRef c))) by done.
  rewrite Ha, bool_decide_eq_true_2 by eauto. simpl.
  by destruct v.
Qed.

Lemma commit_closed now c :
  startTimeRef c ≤ 0 ∨ activeBenchmarkRef c = None → commit now c = render c.
Proof.
  intros H. unfold commit. by rewrite useLayoutEffect_closed.
Qed.

Lemma commit_open now c v :
  0 < startTimeRef c → activeBenchmarkRef c = Some v →
  commit now c
  = {| hooks := apply_update (hooks (render c)) (setTime v (now - startTimeRef c));
       startTimeRef := 0; activeBenchmarkRef := None; queue := [] |}.
Proof.
  intros Hs Ha. unfold commit.
  rewrite (useLayoutEffect_open now (render c) v) by done. simpl.
  by rewrite useLayoutEffect_closed by (left; simpl; lia).
Qed.

(** A commit leaves nothing queued and no window open. *)
Lemma commit_settled now c :
  queue (commit now c) = []
  ∧ (startTimeRef (commit now c) ≤ 0 ∨ activeBenchmarkRef (commit now c) = None).
Proof.
  destruct (decide (0 < startTimeRef c)) as [Hs|Hs];
    [destruct (activeBenchmarkRef c) as [v|] eqn:Ha|].
  - rewrite (commit_open now c v) by done. simpl. split; [done|by right].
  - rewrite commit_closed by auto. simpl. auto.
  - rewrite commit_closed by (left; lia). simpl. split; [done|left; lia].
Qed.

(** ** The controller: what is queued between events *)

Lemma no_time_queued_run trace c :
  no_time_queued c → no_time_queued (run trace c).
Proof.
  revert c. induction trace as [|e trace IH]; intros c Hc; [done|].
  apply IH. destruct e as [type r now|now]; simpl.
  - unfold no_time_queued, triggerSwitch.
    destruct type; simpl; apply Forall_app; split; auto; by repeat constructor.
  - unfold no_time_queued. by rewrite (proj1 (commit_settled now c)).
Qed.

Lemma no_time_queued_reachable trace : no_time_queued (run trace initial).
Proof. apply no_time_queued_run. constructor. Qed.

Lemma fold_no_time us h :
  Forall (λ u, writes_time u = false) us →
  nativeTime (fold_left apply_update us h) = nativeTime h
  ∧ intlayerTime (fold_left apply_update us h) = intlayerTime h.
Proof.
  revert h. induction us as [|u us IH]; intros h Hus; [done|].
  inversion_clear Hus as [|? ? Hu Hrest]. simpl.
  destruct (IH (apply_update h u) Hrest) as [-> ->].
  by destruct u.
Qed.

Lemma lastDuration_render v c :
  no_time_queued c → lastDuration v (render c) = lastDuration v c.
Proof.
  intros Hc. destruct (fold_no_time (queue c) (hooks c) Hc) as [Hn Hi].
  by destruct v.
Qed.

(** ** The controller: the run counter *)

Lemma generation_render_trigger_same v r now c :
  generation v (render (triggerSwitch v r now c))
  = Number.add (generation v (render c)) 1.
Proof.
  destruct v; unfold triggerSwitch, generation; by rewrite hooks_render_enqueue.
Qed.

Lemma generation_render_trigger_other v type r now c :
  type ≠ v →
  generation v (render (triggerSwitch type r now c)) = generation v (render c).
Proof.
  intros Hne. destruct v, type; try done;
    unfold triggerSwitch, generation; by rewrite hooks_render_enqueue.
Qed.

Lemma generation_render_commit v now c :
  generation v (render (commit now c)) = generation v (render c).
Proof.
  rewrite (render_no_queue (commit now c)) by apply commit_settled.
  destruct (decide (0 < startTimeRef c)) as [Hs|Hs];
    [destruct (activeBenchmarkRef c) as [a|] eqn:Ha|].
  - rewrite (commit_open now c a) by done. by destruct v, a.
  - by rewrite commit_closed by auto.
  - by rewrite commit_closed by (left; lia).
Qed.

Lemma triggers_nonneg v trace : 0 ≤ triggers v trace.
Proof.
  induction trace as [|[type r now|now] trace IH]; simpl; [done| |done].
  case_bool_decide; lia.
Qed.


(** The counter a render shows after a trace, from any state: one more for
    each trigger of the variant, up to [2^53], where it stays. *)
Lemma generation_run v trace c :
  0 ≤ generation v (render c) ≤ Number.MAX_EXACT →
  generation v (render (run trace c))
  = Z.min (generation v (render c) + triggers v trace) Number.MAX_EXACT.
Proof.
  revert c. induction trace as [|e trace IH]; intros c Hc.
  { simpl. lia. }
  pose proof (triggers_nonneg v trace) as Hn.
  change (run (e :: trace) c) with (run trace (step c e)).
  destruct e as [type r now|now]; simpl step; simpl triggers.
  - case_bool_decide as Hty.
    + subst type.
      assert (generation v (render (triggerSwitch v r now c))
              = Z.min (generation v (render c) + 1) Number.MAX_EXACT) as Hg.
      { rewrite generation_render_trigger_same. by apply add_one_min. }
      rewrite IH by (rewrite Hg; lia). rewrite Hg. lia.
    + rewrite IH; rewrite generation_render_trigger_other by done; [|done].
      f_equal.
  - rewrite IH; rewrite generation_render_commit; [done|done].
Qed.

Lemma generation_reachable v trace :
  generation v (render (run trace initial))
  = Z.min (triggers v trace) Number.MAX_EXACT.
Proof.
  rewrite generation_run; [by destruct v|].
  destruct v; simpl; unfold Number.MAX_EXACT; lia.
Qed.

Lemma run_app t1 t2 c : run (t1 ++ t2) c = run t2 (run t1 c).
Proof. apply fold_left_app. Qed.


(** ** The controller: theorems *)

Lemma setTime_inj A B d d' : setTime B d = setTime A d' → A = B.
Proof. by destruct A, B. Qed.

Lemma lastDuration_setTime_other A B d h s a q :
  A ≠ B →
  lastDuration B {| hooks := apply_update h (setTime A d); startTimeRef := s;
                    activeBenchmarkRef := a; queue := q |}
  = lastDuration B {| hooks := h; startTimeRef := s;
                      activeBenchmarkRef := a; queue := q |}.
Proof. by destruct A, B. Qed.

(** C1. Window isolation: in the state reached by any interleaving of
    triggers and commits, a commit handled while the measurement is
    attributed to variant [A] ([activeBenchmarkRef] holds [A]) leaves the
    duration of the other variant [B] as it was, and its layout effect
    calls no setter of [B]'s duration. *)
Theorem window_isolation (trace : list Event) (now : Z) (A B : BenchmarkType) :
  activeBenchmarkRef (run trace initial) = Some A →
  A ≠ B →
  lastDuration B (commit now (run trace initial))
  = lastDuration B (run trace initial)
  ∧ ∀ d, setTime B d ∉ queue (useLayoutEffect now (render (run trace initial))).
Proof.
  intros Ha Hne. set (c := run trace initial) in *.
  pose proof (no_time_queued_reachable trace) as Hq. fold c in Hq.
  destruct (decide (0 < startTimeRef c)) as [Hs|Hs]; split.
  - rewrite (commit_open now c A) by done.
    rewrite <- (lastDuration_render B c Hq).
    by rewrite lastDuration_setTime_other.
  - intros d. rewrite (useLayoutEffect_open now (render c) A) by done. simpl.
    intros Hin%list_elem_of_singleton. by apply setTime_inj in Hin.
  - rewrite commit_closed by (left; lia). by apply lastDuration_render.
  - intros d. rewrite useLayoutEffect_closed by (left; simpl; lia).
    simpl. apply not_elem_of_nil.
Qed.

Lemma window_isolation_witness :
  lastDuration intlayer (commit 20 (run [Trigger native 0 10] initial))
  = lastDuration intlayer (run [Trigger native 0 10] initial)
  ∧ ∀ d, setTime intlayer d
         ∉ queue (useLayoutEffect 20 (render (run [Trigger native 0 10] initial))).
Proof.
  apply (window_isolation [Trigger native 0 10] 20 native intlayer);
    [reflexivity | discriminate].
Defined.

(** Commits delivered to a settled component change nothing. *)
Lemma commits_when_settled nows c :
  queue c = [] → startTimeRef c ≤ 0 ∨ activeBenchmarkRef c = None →
  run (Commit <$> nows) c = c.
Proof.
  intros Hq Hw. induction nows as [|now nows IH]; [done|].
  simpl. change (fold_left step (Commit <$> nows) (commit now c))
    with (run (Commit <$> nows) (commit now c)).
  rewrite commit_closed by done. by rewrite render_no_queue.
Qed.

(** C2, as the code has it.  Both triggers are counted, but the controller
    keeps one measurement window ([startTimeRef], [activeBenchmarkRef]) for
    both variants: the second trigger overwrites the first one's window, the
    next commit measures the cached variant from its own trigger, and the
    uncached variant's duration keeps its old value, also under any later
    commits. *)
Theorem interleaved_triggers_one_window (r1 r2 t1 t2 t3 : Z) :
  0 < t2 →
  let c := run [Trigger native r1 t1; Trigger intlayer r2 t2; Commit t3] initial in
  generation native c = 1
  ∧ generation intlayer c = 1
  ∧ lastDuration intlayer c = t3 - t2
  ∧ lastDuration native c = lastDuration native initial
  ∧ ∀ nows, lastDuration native (run (Commit <$> nows) c)
            = lastDuration native initial.
Proof.
  intros Ht2 c.
  assert (c = {| hooks := {| nativeLocale := if Math.random_gt_half r1 then "fr" else "de";
                             intlayerLocale := if Math.random_gt_half r2 then "fr" else "de";
                             nativeRenderKey := 1; intlayerRenderKey := 1;
                             nativeTime := 0; intlayerTime := t3 - t2 |};
                 startTimeRef := 0; activeBenchmarkRef := None; queue := [] |}) as ->.
  { unfold c, run. simpl fold_left.
    by rewrite (commit_open t3 _ intlayer). }
  repeat split; try done.
  intros nows. rewrite commits_when_settled; [done|done|by right].
Qed.

Lemma interleaved_triggers_one_window_witness :
  let c := run [Trigger native 0 10; Trigger intlayer 0 11; Commit 20] initial in
  generation native c = 1
  ∧ generation intlayer c = 1
  ∧ lastDuration intlayer c = 20 - 11
  ∧ lastDuration native c = lastDuration native initial
  ∧ ∀ nows, lastDuration native (run (Commit <$> nows) c)
            = lastDuration native initial.
Proof. apply (interleaved_triggers_one_window 0 0 10 11 20). lia. Defined.

(** C2, counterexample.  Uncached triggered at 10, cached at 11, commit at
    20: both counters are 1 and the cached duration is 9, but the uncached
    duration is still the initial 0, not the 10 ticks of its own window. *)
Lemma interleaved_uncached_never_measured :
  let c := run [Trigger native 0 10; Trigger intlayer 0 11; Commit 20] initial in
  generation native c = 1
  ∧ generation intlayer c = 1
  ∧ lastDuration intlayer c = 9
  ∧ lastDuration native c = 0
  ∧ lastDuration native c ≠ 20 - 10
  ∧ lastDuration native (run [Commit 21; Commit 22] c) = 0.
Proof. repeat split; done. Qed.

(** The callback with no open window, in any state of the component: it
    calls no setter and leaves hooks, refs and queue as they are. *)
Lemma useLayoutEffect_stale now c : startTimeRef c = 0 → useLayoutEffect now c = c.
Proof. intros Hs. apply useLayoutEffect_closed. left. lia. Qed.

(** C3. Stale commit signal: if the post-commit callback runs while
    [startTimeRef] is 0, it is the identity on the component (no setter is
    called, so no duration, negative or stale, is produced), and the model's
    callback is a total function (it raises nothing).  For a commit signal
    delivered in a state reached by any trace, neither variant's duration
    changes. *)
Theorem stale_commit_is_noop (trace : list Event) (now : Z) :
  startTimeRef (run trace initial) = 0 →
  useLayoutEffect now (render (run trace initial)) = render (run trace initial)
  ∧ commit now (run trace initial) = render (run trace initial)
  ∧ ∀ v, lastDuration v (commit now (run trace initial))
         = lastDuration v (run trace initial).
Proof.
  intros Hs. split; [by apply useLayoutEffect_stale|].
  rewrite commit_closed by (left; lia). split; [done|].
  intros v. apply lastDuration_render, no_time_queued_reachable.
Qed.

Lemma stale_commit_is_noop_witness :
  useLayoutEffect 7 (render (run [Trigger native 0 3; Commit 5] initial))
  = render (run [Trigger native 0 3; Commit 5] initial)
  ∧ commit 7 (run [Trigger native 0 3; Commit 5] initial)
    = render (run [Trigger native 0 3; Commit 5] initial)
  ∧ ∀ v, lastDuration v (commit 7 (run [Trigger native 0 3; Commit 5] initial))
         = lastDuration v (run [Trigger native 0 3; Commit 5] initial).
Proof. apply (stale_commit_is_noop [Trigger native 0 3; Commit 5] 7). reflexivity. Defined.




(** C9, as the code has it.  One trigger of the cached variant at a clock
    reading [t0 > 0], then a commit at [t1 ≥ t0]: the cached counter is 1
    and its duration is [t1 - t0], which is never negative and is positive
    exactly when the clock has advanced; the uncached variant's counter,
    locale and duration are unchanged. *)
Theorem single_trigger (r t0 t1 : Z) :
  0 < t0 → t0 ≤ t1 →
  let c := run [Trigger intlayer r t0; Commit t1] initial in
  generation intlayer c = 1
  ∧ lastDuration intlayer c = t1 - t0
  ∧ 0 ≤ lastDuration intlayer c
  ∧ (0 < lastDuration intlayer c ↔ t0 < t1)
  ∧ generation native c = generation native initial
  ∧ displayLocale native c = displayLocale native initial
  ∧ lastDuration native c = lastDuration native initial.
Proof.
  intros Ht0 Ht1 c.
  assert (c = {| hooks := {| nativeLocale := "en";
                             intlayerLocale := if Math.random_gt_half r then "fr" else "de";
                             nativeRenderKey := 0; intlayerRenderKey := 1;
                             nativeTime := 0; intlayerTime := t1 - t0 |};
                 startTimeRef := 0; activeBenchmarkRef := None; queue := [] |}) as ->.
  { unfold c, run. simpl fold_left. by rewrite (commit_open t1 _ intlayer). }
  simpl. repeat split; try done; lia.
Qed.

Lemma single_trigger_witness :
  let c := run [Trigger intlayer 0 10; Commit 25] initial in
  generation intlayer c = 1
  ∧ lastDuration intlayer c = 25 - 10
  ∧ 0 ≤ lastDuration intlayer c
  ∧ (0 < lastDuration intlayer c ↔ 10 < 25)
  ∧ generation native c = generation native initial
  ∧ displayLocale native c = displayLocale native initial
  ∧ lastDuration native c = lastDuration native initial.
Proof. apply (single_trigger 0 10 25); lia. Defined.

(** C9, counterexample.  Trigger and commit within one tick of the clock
    ([performance.now()] reads 5 both times): the cached counter is 1 and
    the duration stored is 0, not a value above 0. *)
Lemma single_trigger_zero_duration :
  let c := run [Trigger intlayer 0 5; Commit 5] initial in
  generation intlayer c = 1
  ∧ lastDuration intlayer c = 0
  ∧ ¬ (0 < lastDuration intlayer c).
Proof. repeat split; [vm_compute; discriminate]. Qed.

(** [0.6666666666666666 * 3] is [2] in doubles: the floor of the rounded
    product is 2, that of the exact product would be 1. *)
Example floor_of_rounded_product : Math.floor_random_times 6004799503160661 3 = 2.
Proof. reflexivity. Qed.

Example shuffle_three :
  call_shuffleArray (λ _, 0) ["a"; "b"; "c"] None = Some (["b"; "c"; "a"], ["a"; "b"; "c"]).
Proof. vm_compute. reflexivity. Qed.

Example shuffle_three_limit_2 :
  call_shuffleArray (λ n, 2 ^ 52 * Z.of_nat n) ["a"; "b"; "c"] (Some 2)
  = Some (["c"; "b"], ["a"; "b"; "c"]).
Proof. vm_compute. reflexivity. Qed.

Example date_of_epoch :
  (Date.YearFromTime 0, Date.MonthFromTime 0, Date.DateFromTime 0) = (1970, 0, 1).
Proof. reflexivity. Qed.

Example date_of_20759 :
  let t := 20759 * Date.msPerDay + 3600000 in
  (Date.YearFromTime t, Date.MonthFromTime t, Date.DateFromTime t) = (2026, 10, 2).
Proof. reflexivity. Qed.

Example date_of_11016 :
  let t := 11016 * Date.msPerDay in
  (Date.YearFromTime t, Date.MonthFromTime t, Date.DateFromTime t) = (2000, 1, 29).
Proof. reflexivity. Qed.

Example date_before_epoch :
  (Date.YearFromTime (-1), Date.MonthFromTime (-1), Date.DateFromTime (-1)) = (1969, 11, 31).
Proof. reflexivity. Qed.

Example date_of_minus_25508 :
  let t := -25508 * Date.msPerDay in
  (Date.YearFromTime t, Date.MonthFromTime t, Date.DateFromTime t) = (1900, 2, 1).
Proof. reflexivity. Qed.

Example MakeDay_month_carry : Date.MakeDay 2026 10 61 = 20759 + 59.
Proof. reflexivity. Qed.

Example uniqueOffset_fr_FR : uniqueOffset "fr-FR" = 413.
Proof. reflexivity. Qed.

Example run_single :
  run [Trigger intlayer 0 10; Commit 25] initial
  = {| hooks := {| nativeLocale := "en"; intlayerLocale := "de";
                   nativeRenderKey := 0; intlayerRenderKey := 1;
                   nativeTime := 0; intlayerTime := 15 |};
       startTimeRef := 0; activeBenchmarkRef := None; queue := [] |}.
Proof. reflexivity. Qed.

(* ===================================================================== *)
(** * Part III: further properties of the code *)
(* ===================================================================== *)

(** ** The controller *)

Lemma displayLocale_render_trigger_same v r now c :
  displayLocale v (render (triggerSwitch v r now c))
  = if Math.random_gt_half r then "fr" else "de".
Proof.
  destruct v; unfold triggerSwitch, displayLocale; by rewrite hooks_render_enqueue.
Qed.

Lemma displayLocale_render_trigger_other v type r now c :
  type ≠ v →
  displayLocale v (render (triggerSwitch type r now c)) = displayLocale v (render c).
Proof.
  intros Hne. destruct v, type; try done;
    unfold triggerSwitch, displayLocale; by rewrite hooks_render_enqueue.
Qed.

Lemma displayLocale_render_commit v now c :
  displayLocale v (render (commit now c)) = displayLocale v (render c).
Proof.
  rewrite (render_no_queue (commit now c)) by apply commit_settled.
  destruct (decide (0 < startTimeRef c)) as [Hs|Hs];
    [destruct (activeBenchmarkRef c) as [a|] eqn:Ha|].
  - rewrite (commit_open now c a) by done. by destruct v, a.
  - by rewrite commit_closed by auto.
  - by rewrite commit_closed by (left; lia).
Qed.

(** The locale a render shows after a trace, from any state. *)
Lemma displayLocale_run v trace c r0 :
  displayLocale v (render c)
  = match r0 with
    | Some r => if Math.random_gt_half r then "fr" else "de"
    | None => "en"
    end →
  displayLocale v (render (run trace c))
  = match latest_draw v r0 trace with
    | Some r => if Math.random_gt_half r then "fr" else "de"
    | None => "en"
    end.
Proof.
  revert c r0. induction trace as [|e trace IH]; intros c r0 Hc; [done|].
  change (run (e :: trace) c) with (run trace (step c e)).
  destruct e as [type r now|now]; simpl step; simpl latest_draw.
  - apply IH. case_bool_decide as Hty.
    + subst type. apply displayLocale_render_trigger_same.
    + by rewrite displayLocale_render_trigger_other.
  - apply IH. by rewrite displayLocale_render_commit.
Qed.

Lemma latest_draw_none v trace r0 :
  latest_draw v r0 trace = None ↔ r0 = None ∧ triggers v trace = 0.
Proof.
  revert r0. induction trace as [|[type r now|now] trace IH]; intros r0; simpl.
  - split; [by intros ->|by intros [-> _]].
  - pose proof (triggers_nonneg v trace). rewrite IH.
    case_bool_decide; [split; [intros [[=] _]|lia]|].
    rewrite Z.add_0_l. done.
  - apply IH.
Qed.

Lemma latest_draw_own v trace r0 :
  latest_draw v r0 (own_triggers v trace) = latest_draw v r0 trace.
Proof.
  revert r0. induction trace as [|[type r now|now] trace IH]; intros r0; simpl; [done| |done].
  case_bool_decide as Hty; [|done]. simpl. by rewrite bool_decide_eq_true_2.
Qed.

Lemma triggers_own v trace : triggers v (own_triggers v trace) = triggers v trace.
Proof.
  induction trace as [|[type r now|now] trace IH]; simpl; [done| |done].
  case_bool_decide as Hty; [|lia]. simpl. rewrite bool_decide_eq_true_2 by done. lia.
Qed.

(** X1. Once a variant has been triggered its section is never rendered
    with the initial locale again: after any trace the locale of a variant
    is "en" exactly when the variant was never triggered, and otherwise it
    is "fr" or "de" as the draw of the variant's latest trigger decides
    (above one half: "fr"). *)
Theorem displayLocale_after_trace (v : BenchmarkType) (trace : list Event) :
  displayLocale v (render (run trace initial))
  = match latest_draw v None trace with
    | Some r => if Math.random_gt_half r then "fr" else "de"
    | None => "en"
    end
  ∧ (displayLocale v (render (run trace initial)) = "en" ↔ triggers v trace = 0)
  ∧ (triggers v trace ≠ 0 →
     displayLocale v (render (run trace initial)) = "fr"
     ∨ displayLocale v (render (run trace initial)) = "de").
Proof.
  rewrite (displayLocale_run v trace initial None) by by destruct v.
  pose proof (latest_draw_none v trace None) as Hnone.
  split; [done|]. destruct (latest_draw v None trace) as [r|].
  - assert (triggers v trace ≠ 0) as Hne.
    { intros H0. destruct Hnone as [_ Hn]. by specialize (Hn (conj eq_refl H0)). }
    split; [split; [by destruct (Math.random_gt_half r)|done]|].
    intros _. destruct (Math.random_gt_half r); auto.
  - destruct Hnone as [[_ H0] _]; [done|]. by split.
Qed.

(** X2. The run counter and the locale of a variant depend on that
    variant's own triggers only: triggers of the other variant and commits,
    wherever they fall in the trace, change neither. *)
Theorem counter_and_locale_ignore_other_variant (v : BenchmarkType) (trace : list Event) :
  generation v (render (run trace initial))
  = generation v (render (run (own_triggers v trace) initial))
  ∧ displayLocale v (render (run trace initial))
    = displayLocale v (render (run (own_triggers v trace) initial)).
Proof.
  split.
  - by rewrite !generation_reachable, triggers_own.
  - rewrite (displayLocale_run v trace initial None) by by destruct v.
    rewrite (displayLocale_run v (own_triggers v trace) initial None) by by destruct v.
    by rewrite latest_draw_own.
Qed.

(** X3. A commit settles the component: no setter call is left queued,
    and a further commit signal, at whatever clock reading, changes nothing
    (its layout effect finds no open window).  So a trigger is measured at
    most once. *)
Theorem commit_is_idempotent (c : Component) (now1 now2 : Z) :
  queue (commit now1 c) = []
  ∧ useLayoutEffect now2 (commit now1 c) = commit now1 c
  ∧ commit now2 (commit now1 c) = commit now1 c.
Proof.
  destruct (commit_settled now1 c) as [Hq Hw].
  split; [done|]. split; [by apply useLayoutEffect_closed|].
  rewrite commit_closed by done. by apply render_no_queue.
Qed.

Lemma no_time_queued_trigger v r now c :
  no_time_queued c → no_time_queued (triggerSwitch v r now c).
Proof.
  intros Hc. unfold no_time_queued, triggerSwitch.
  destruct v; simpl; apply Forall_app; split; auto; by repeat constructor.
Qed.

Lemma lastDuration_trigger u v r now c :
  lastDuration u (triggerSwitch v r now c) = lastDuration u c.
Proof. by destruct u, v. Qed.

(** X4. Whatever came before, a trigger followed directly by a commit
    measures that trigger: in any reachable state, triggering [v] at a
    clock reading [t > 0] and committing at [now] sets the duration of [v]
    to [now - t] and leaves the other variant's duration as it was.  A
    trigger at a reading [t ≤ 0] is not measured at all. *)
Theorem trigger_then_commit (trace : list Event) (v : BenchmarkType) (r t now : Z) :
  (0 < t →
   lastDuration v (run [Trigger v r t; Commit now] (run trace initial)) = now - t
   ∧ lastDuration (other v) (run [Trigger v r t; Commit now] (run trace initial))
     = lastDuration (other v) (run trace initial))
  ∧ (t ≤ 0 →
     ∀ u, lastDuration u (run [Trigger v r t; Commit now] (run trace initial))
          = lastDuration u (run trace initial)).
Proof.
  set (c := run trace initial).
  pose proof (no_time_queued_reachable trace) as Hq. fold c in Hq.
  pose proof (no_time_queued_trigger v r t c Hq) as Hq1.
  change (run [Trigger v r t; Commit now] c) with (commit now (triggerSwitch v r t c)).
  assert (startTimeRef (triggerSwitch v r t c) = t) as Hs by by destruct v.
  assert (activeBenchmarkRef (triggerSwitch v r t c) = Some v) as Ha by by destruct v.
  split.
  - intros Ht. rewrite (commit_open now _ v) by (done || lia). rewrite Hs.
    split.
    + by destruct v.
    + rewrite lastDuration_setTime_other by by destruct v.
      change (lastDuration (other v) (render (triggerSwitch v r t c))
              = lastDuration (other v) c).
      by rewrite lastDuration_render, lastDuration_trigger.
  - intros Ht u. rewrite commit_closed by (left; lia).
    by rewrite lastDuration_render, lastDuration_trigger.
Qed.

(** What a monotonic clock keeps true of the component. *)
Lemma clock_invariant t trace c :
  0 ≤ t → startTimeRef c ≤ t →
  0 ≤ nativeTime (hooks c) → 0 ≤ intlayerTime (hooks c) →
  no_time_queued c →
  clock_monotone t trace →
  0 ≤ nativeTime (hooks (run trace c)) ∧ 0 ≤ intlayerTime (hooks (run trace c)).
Proof.
  revert t c. induction trace as [|e trace IH]; intros t c Ht Hs Hn Hi Hq Hmono; [done|].
  destruct Hmono as [Hte Hmono].
  change (run (e :: trace) c) with (run trace (step c e)).
  destruct e as [v r now|now]; simpl in Hte, Hmono; simpl step.
  - apply (IH now); try done; try lia.
    + destruct v; simpl; lia.
    + by destruct v.
    + by destruct v.
    + by apply no_time_queued_trigger.
  - destruct (fold_no_time (queue c) (hooks c) Hq) as [Hfn Hfi].
    assert (no_time_queued (commit now c)) as Hq'.
    { unfold no_time_queued. rewrite (proj1 (commit_settled now c)). constructor. }
    destruct (decide (0 < startTimeRef c)) as [Hpos|Hpos];
      [destruct (activeBenchmarkRef c) as [a|] eqn:Ha|].
    + apply (IH now); try done; try lia; rewrite (commit_open now c a) by done.
      * simpl. lia.
      * destruct a; simpl; lia.
      * destruct a; simpl; lia.
    + apply (IH now); try done; try lia; rewrite commit_closed by auto; simpl; lia.
    + apply (IH now); try done; try lia; rewrite commit_closed by (left; lia);
        simpl; lia.
Qed.

(** X5. Non-negative durations: along any trace whose clock readings start
    at 0 or later and never decrease, every duration the controller holds
    is 0 or more. *)
Theorem durations_never_negative (trace : list Event) (v : BenchmarkType) :
  clock_monotone 0 trace → 0 ≤ lastDuration v (run trace initial).
Proof.
  intros Hmono.
  destruct (clock_invariant 0 trace initial) as [Hn Hi]; try done.
  { constructor. }
  by destruct v.
Qed.

Lemma durations_never_negative_witness :
  0 ≤ lastDuration native
        (run [Trigger native 0 3; Trigger intlayer 0 3; Commit 8; Trigger native 0 9;
              Commit 9] initial).
Proof.
  apply (durations_never_negative
           [Trigger native 0 3; Trigger intlayer 0 3; Commit 8; Trigger native 0 9;
            Commit 9] native).
  simpl. lia.
Defined.

(** ** The date of a card, again *)

Lemma DayFromYear_mono y1 y2 : y1 ≤ y2 → Date.DayFromYear y1 ≤ Date.DayFromYear y2.
Proof. unfold Date.DayFromYear. intros Hy. Z.div_mod_to_equations. lia. Qed.

(** The year of a time value is the only year whose days hold its day. *)
Lemma YearFromTime_unique t y :
  Date.DayFromYear y ≤ Date.Day t < Date.DayFromYear (y + 1) →
  Date.YearFromTime t = y.
Proof.
  intros Hy. pose proof (YearFromTime_spec t) as HY.
  destruct (Z.lt_trichotomy (Date.YearFromTime t) y) as [Hlt|[Heq|Hgt]]; [|done|].
  - pose proof (DayFromYear_mono (Date.YearFromTime t + 1) y). lia.
  - pose proof (DayFromYear_mono (y + 1) (Date.YearFromTime t)). lia.
Qed.

Lemma Day_plus_days t n : Date.Day (t + n * Date.msPerDay) = Date.Day t + n.
Proof. unfold Date.Day, Date.msPerDay. by rewrite Z.div_add. Qed.

(** 365 days later it is the next year, except from the first day of a
    leap year, which has a 366th day. *)
Lemma YearFromTime_365_days_later t :
  Date.YearFromTime (t + 365 * Date.msPerDay)
  = Date.YearFromTime t
    + (if (Date.InLeapYear t =? 1) && (Date.DayWithinYear t =? 0) then 0 else 1).
Proof.
  pose proof (YearFromTime_spec t) as HY.
  pose proof (DayWithinYear_range t) as Hd. unfold Date.DayWithinYear in *.
  set (Y := Date.YearFromTime t) in *.
  pose proof (DayFromYear_step Y) as H1. pose proof (DayFromYear_step (Y + 1)) as H2.
  pose proof (DaysInYear_cases (Y + 1)) as Hn.
  apply YearFromTime_unique. rewrite Day_plus_days.
  destruct (InLeapYear_cases t) as [[Hl Hlen]|[Hl Hlen]]; fold Y in Hlen;
    rewrite Hl in *.
  - change ((0 =? 1) && (Date.Day t - Date.DayFromYear Y =? 0)) with false.
    cbv iota. rewrite H2, H1. lia.
  - change (1 =? 1) with true. rewrite andb_true_l.
    destruct (Z.eqb_spec (Date.Day t - Date.DayFromYear Y) 0) as [H0|H0].
    + rewrite Z.add_0_r, H1. lia.
    + rewrite H2, H1. lia.
Qed.

(** X6. Each trigger moves the date of every card by exactly 365 days.
    In a host with a constant UTC offset, for the same clock reading and
    locale, the valid dates of generations [renderKey] and [renderKey + 1]
    lie 365 days apart, and the local year of the later one is the next
    year, except that from the first day of a leap year the date lands on
    the last day of the same year. *)
Theorem trigger_moves_date_365_days
    (tza now : Z) (locale : string) (renderKey u u' : Z) :
  0 ≤ renderKey →
  365 * (renderKey + 1) + hash locale + 31 < 2 ^ 53 →
  dynamicDate (λ _ _, tza) now locale renderKey = Some u →
  dynamicDate (λ _ _, tza) now locale (renderKey + 1) = Some u' →
  u' = u + 365 * Date.msPerDay
  ∧ Date.YearFromTime (Date.LocalTime (λ _ _, tza) u')
    = Date.YearFromTime (Date.LocalTime (λ _ _, tza) u)
      + (if (Date.InLeapYear (Date.LocalTime (λ _ _, tza) u) =? 1)
            && (Date.DayWithinYear (Date.LocalTime (λ _ _, tza) u) =? 0)
         then 0 else 1).
Proof.
  intros Hk Hlt. rewrite !dynamicDate_exact by lia.
  intros Hu Hu'.
  assert (u' = u + 365 * Date.msPerDay) as ->.
  { revert Hu Hu'. unfold Date.TimeClip, Date.UTC, Date.LocalTime.
    repeat case_match; intros [= <-] [= <-]. lia. }
  split; [done|]. rewrite <- YearFromTime_365_days_later.
  f_equal. unfold Date.LocalTime. lia.
Qed.

Lemma trigger_moves_date_365_days_witness :
  81734400000 = 50198400000 + 365 * Date.msPerDay
  ∧ Date.YearFromTime (Date.LocalTime (λ _ _, 0) 81734400000)
    = Date.YearFromTime (Date.LocalTime (λ _ _, 0) 50198400000)
      + (if (Date.InLeapYear (Date.LocalTime (λ _ _, 0) 50198400000) =? 1)
            && (Date.DayWithinYear (Date.LocalTime (λ _ _, 0) 50198400000) =? 0)
         then 0 else 1).
Proof.
  apply (trigger_moves_date_365_days 0 0 "fr" 1 50198400000 81734400000);
    [lia | vm_compute; done | reflexivity | reflexivity].
Defined.

(** X7. The offset of a locale does not tell locales apart.  In a host
    with a constant UTC offset, two cards rendered at the same clock
    reading and generation show valid dates that lie
    [hash locale1 - hash locale2] days apart: they show the same date
    exactly when the character codes of their locales have the same sum, as
    those of es and fr have. *)
Theorem cards_share_a_date_iff_sums_agree
    (tza now : Z) (locale1 locale2 : string) (renderKey u1 u2 : Z) :
  0 ≤ renderKey →
  365 * renderKey + hash locale1 + 31 < 2 ^ 53 →
  365 * renderKey + hash locale2 + 31 < 2 ^ 53 →
  dynamicDate (λ _ _, tza) now locale1 renderKey = Some u1 →
  dynamicDate (λ _ _, tza) now locale2 renderKey = Some u2 →
  u1 - u2 = (hash locale1 - hash locale2) * Date.msPerDay
  ∧ (u1 = u2 ↔ hash locale1 = hash locale2).
Proof.
  intros Hk Hlt1 Hlt2. rewrite !dynamicDate_exact by done.
  unfold Date.TimeClip, Date.UTC, Date.LocalTime, Date.msPerDay.
  repeat case_match; intros [= <-] [= <-]. lia.
Qed.

Lemma cards_share_a_date_iff_sums_agree_witness :
  1812276000000 - 1812276000000 = (hash "es" - hash "fr") * Date.msPerDay
  ∧ (1812276000000 = 1812276000000 ↔ hash "es" = hash "fr").
Proof.
  apply (cards_share_a_date_iff_sums_agree 0 1793613600000 "es" "fr" 0
           1812276000000 1812276000000);
    [lia | vm_compute; done | vm_compute; done | reflexivity | reflexivity].
Defined.

(** ** Keys *)

Lemma string_app_nil (s : string) : "" +:+ s = s.
Proof. reflexivity. Qed.

Lemma string_app_cons a (s1 s2 : string) : String a s1 +:+ s2 = String a (s1 +:+ s2).
Proof. reflexivity. Qed.

Lemma no_dash_app s1 s2 : no_dash s1 → no_dash s2 → no_dash (s1 +:+ s2).
Proof.
  induction s1 as [|a s1 IH]; [done|].
  rewrite string_app_cons. simpl. intros [? ?] ?. auto.
Qed.

Lemma no_dash_pretty_N_go x s : no_dash s → no_dash (pretty_N_go x s).
Proof.
  revert s. induction (N.lt_wf_0 x) as [x _ IH]; intros s Hs.
  destruct (decide (0 < x)%N) as [Hx|Hx].
  - rewrite pretty_N_go_step by done. apply IH; [by apply N.div_lt|].
    split; [|done]. unfold pretty_N_char. by repeat case_match.
  - replace x with 0%N by lia. by rewrite pretty_N_go_0.
Qed.

Lemma no_dash_pretty_N (x : N) : no_dash (pretty x).
Proof.
  unfold pretty, pretty_N. case_decide; [by repeat split|].
  by apply no_dash_pretty_N_go.
Qed.

Lemma no_dash_pretty_nat (n : nat) : no_dash (pretty n).
Proof. apply no_dash_pretty_N. Qed.

Lemma no_dash_pretty_Z (z : Z) : 0 ≤ z → no_dash (pretty z).
Proof.
  intros Hz. destruct z as [|p|p]; [by repeat split| |lia].
  apply (no_dash_pretty_N (N.pos p)).
Qed.

Lemma string_app_assoc (s1 s2 s3 : string) : (s1 +:+ s2) +:+ s3 = s1 +:+ s2 +:+ s3.
Proof.
  induction s1 as [|a s1 IH]; [done|]. rewrite !string_app_cons. by rewrite IH.
Qed.

Lemma dash_in_app s d : ¬ no_dash (s +:+ "-" +:+ d).
Proof.
  induction s as [|a s IH].
  - repeat (rewrite string_app_nil || rewrite string_app_cons). by intros [? _].
  - rewrite string_app_cons. by intros [_ ?].
Qed.

(** The text after the last [-] of a string, and the text before it, are
    determined by the string. *)
Lemma split_at_last_dash s1 s2 d1 d2 :
  no_dash d1 → no_dash d2 →
  s1 +:+ "-" +:+ d1 = s2 +:+ "-" +:+ d2 → s1 = s2 ∧ d1 = d2.
Proof.
  intros Hd1 Hd2. revert s2.
  induction s1 as [|a s1 IH]; intros [|b s2];
    repeat (rewrite string_app_nil || rewrite string_app_cons).
  - by intros [= ->].
  - intros [= <- ->]. by destruct (dash_in_app s2 d2).
  - intros [= -> <-]. by destruct (dash_in_app s1 d1).
  - intros [= -> Hrest]. destruct (IH s2 Hrest) as [-> ->]. done.
Qed.

Lemma card_key_same_generation l1 l2 (i1 i2 : nat) k1 k2 :
  0 ≤ k1 → 0 ≤ k2 → card_key l1 i1 k1 = card_key l2 i2 k2 →
  l1 = l2 ∧ i1 = i2 ∧ k1 = k2.
Proof.
  intros Hk1 Hk2.
  assert (∀ l (i : nat) (k : Z),
            card_key l i k = (l +:+ "-" +:+ pretty i) +:+ "-" +:+ pretty k) as Hkey_eq.
  { intros. unfold card_key. by rewrite !string_app_assoc. }
  rewrite !Hkey_eq. intros Hkey.
  apply split_at_last_dash in Hkey as [Hpre Hk]; [|by apply no_dash_pretty_Z..].
  apply split_at_last_dash in Hpre as [Hl Hi]; [|by apply no_dash_pretty_nat..].
  split; [done|]. split; [by apply (inj pretty)|by apply (inj pretty)].
Qed.

(** X8. Keys tell cards apart.  The key of a card determines its locale,
    its index and its generation: two cards of one list never share a key,
    and a card of one generation never has the key of a card of another
    generation. *)
Theorem card_key_inj (locale1 locale2 : string) (index1 index2 : nat)
    (renderKey1 renderKey2 : Z) :
  0 ≤ renderKey1 < 10 ^ 21 → 0 ≤ renderKey2 < 10 ^ 21 →
  card_key locale1 index1 renderKey1 = card_key locale2 index2 renderKey2 →
  locale1 = locale2 ∧ index1 = index2 ∧ renderKey1 = renderKey2.
Proof.
  intros [Hk1 _] [Hk2 _]. by apply card_key_same_generation.
Qed.

Lemma card_key_inj_witness :
  "fr-CA" = "fr-CA" ∧ 3%nat = 3%nat ∧ 7 = 7.
Proof. apply (card_key_inj "fr-CA" "fr-CA" 3 3 7 7); [lia|lia|reflexivity]. Defined.

(** ** The elements of a section *)

Lemma LocalCardList_keys xs dl ic k :
  element_key <$> LocalCardList xs dl ic k = imap (λ i l, card_key l i k) xs.
Proof. unfold LocalCardList. by rewrite fmap_imap. Qed.

Lemma LocalCardList_length xs dl ic k : length (LocalCardList xs dl ic k) = length xs.
Proof. apply length_imap. Qed.

Lemma LocalCardList_keys_NoDup xs dl ic k :
  0 ≤ k → NoDup (element_key <$> LocalCardList xs dl ic k).
Proof.
  intros Hk. rewrite LocalCardList_keys. apply NoDup_alt. intros i j key Hi Hj.
  apply list_lookup_imap_Some in Hi as (li & _ & ->).
  apply list_lookup_imap_Some in Hj as (lj & _ & Hkey).
  by apply card_key_same_generation in Hkey as (_ & ? & _).
Qed.

Lemma section_rows_run w i refs dl ic k :
  Forall (λ b, is_Some (arrays w !! b)) refs →
  section_rows i refs dl ic k w = Some (rows_of w i refs dl ic k, w).
Proof.
  intros Hrefs. revert i. induction Hrefs as [|b refs [xs Hb] _ IH]; intros i; [done|].
  cbn [section_rows]. rewrite bind_run, (read_run _ _ xs) by done.
  rewrite bind_run, IH. unfold rows_of. cbn [imap]. rewrite Hb, Nat.add_0_r. simpl.
  unfold mret, M_ret. do 3 f_equal. apply imap_ext. intros j b' _. simpl.
  f_equal. lia.
Qed.

Lemma section_keys_generation w i refs dl ic k key :
  key ∈ section_keys (rows_of w i refs dl ic k) → ∃ l (j : nat), key = card_key l j k.
Proof.
  unfold section_keys. intros ((n & cards) & Hkey & Hrow)%list_elem_of_bind. simpl in Hkey.
  apply list_elem_of_lookup in Hrow as [m Hrow].
  apply list_lookup_imap_Some in Hrow as (b & _ & [= -> ->]).
  rewrite LocalCardList_keys in Hkey.
  apply list_elem_of_lookup in Hkey as [j Hkey].
  apply list_lookup_imap_Some in Hkey as (l & _ & ->). eauto.
Qed.

Lemma section_keys_length n rows :
  Forall (λ row : nat * list LocalCardElement, length row.2 = n) rows →
  length (section_keys rows) = (length rows * n)%nat.
Proof.
  unfold section_keys. induction 1 as [|row rows Hrow _ IH]; [done|].
  rewrite bind_cons, length_app, length_fmap, Hrow, IH. simpl. lia.
Qed.

(** X9. Every trigger remounts all the cards of a section.  After the data
    preparation with at least [NUM_OF_ITEMS] locales, the section renders
    (it never returns null) twenty rows, keyed 0 to 19, of [NUM_OF_ITEMS]
    cards each, a thousand cards in all, without changing the store; the
    keys of the cards of a row are pairwise distinct; and no key of the
    render at one generation is a key of the render at another
    generation. *)
Theorem section_remounts_every_card
    (random : nat → Z) (ALL_LOCALES : list string) (w : World)
    (displayLocale : string) (IntlConstructor : BenchmarkType) (renderKey : Z) :
  NUM_OF_ITEMS ≤ Z.of_nat (length ALL_LOCALES) →
  0 ≤ renderKey < 10 ^ 21 →
  ∃ allLocales arrayOfLocale w' rows,
    data_prep random ALL_LOCALES w = Some ((allLocales, arrayOfLocale), w')
    ∧ LanguageSectionRenderer arrayOfLocale displayLocale IntlConstructor renderKey w'
      = Some (Some rows, w')
    ∧ rows.*1 = seq 0 20
    ∧ Forall (λ row, Z.of_nat (length row.2) = NUM_OF_ITEMS
                     ∧ NoDup (element_key <$> row.2)) rows
    ∧ length (section_keys rows) = 1000%nat
    ∧ ∀ displayLocale' renderKey' rows',
        0 ≤ renderKey' < 10 ^ 21 → renderKey' ≠ renderKey →
        LanguageSectionRenderer arrayOfLocale displayLocale' IntlConstructor renderKey' w'
        = Some (Some rows', w') →
        ∀ key, key ∈ section_keys rows → key ∉ section_keys rows'.
Proof.
  intros Hsize [Hk _].
  destruct (data_prep_spec random ALL_LOCALES w)
    as (a & bs & w' & Hrun & Hsub & Ha & Hlen & Hnd & Hbs).
  assert (Forall (λ b, is_Some (arrays w' !! b)) bs) as Halloc.
  { eapply Forall_impl; [done|]. intros b (sh & ps & Hb & _). by eexists. }
  assert (∀ dl k, LanguageSectionRenderer bs dl IntlConstructor k w'
                  = Some (Some (rows_of w' 0 bs dl IntlConstructor k), w')) as Hrender.
  { intros dl k. unfold LanguageSectionRenderer.
    rewrite bool_decide_eq_false_2 by (rewrite Hlen; lia).
    by rewrite bind_run, section_rows_run. }
  assert (Forall (λ row : nat * list LocalCardElement,
                    length row.2 = Z.to_nat NUM_OF_ITEMS)
            (rows_of w' 0 bs displayLocale IntlConstructor renderKey)) as Hrows.
  { apply Forall_forall. intros [n cards] Hrow.
    apply list_elem_of_lookup in Hrow as [m Hrow].
    apply list_lookup_imap_Some in Hrow as (b & Hb & [= -> ->]).
    rewrite Forall_forall in Hbs.
    destruct (Hbs b) as (sh & ps & Hcontent & Hp & _).
    { apply list_elem_of_lookup. eauto. }
    simpl. rewrite LocalCardList_length, Hcontent. simpl.
    rewrite length_take, Hp. unfold kept, slice_bound, NUM_OF_ITEMS in *. simpl. lia. }
  exists a, bs, w', (rows_of w' 0 bs displayLocale IntlConstructor renderKey).
  split; [done|]. split; [apply Hrender|]. split; [|split; [|split]].
  - unfold rows_of. rewrite fmap_imap. rewrite <- Hlen.
    apply list_eq. intros i. rewrite list_lookup_imap.
    destruct (bs !! i) as [b|] eqn:Hb; simpl.
    + symmetry. apply lookup_seq. split; [done|]. by eapply lookup_lt_Some.
    + symmetry. apply lookup_seq_ge. by apply lookup_ge_None.
  - apply Forall_forall. intros [n cards] Hrow.
    rewrite Forall_forall in Hrows. pose proof (Hrows _ Hrow) as Hl. simpl in Hl.
    apply list_elem_of_lookup in Hrow as [m Hrow].
    apply list_lookup_imap_Some in Hrow as (b & Hb & [= -> ->]). simpl. split.
    + rewrite Hl. unfold NUM_OF_ITEMS. lia.
    + by apply LocalCardList_keys_NoDup.
  - rewrite (section_keys_length (Z.to_nat NUM_OF_ITEMS)) by done.
    unfold rows_of. rewrite length_imap, Hlen. done.
  - intros dl' k' rows' [Hk' _] Hne Hrender'. rewrite Hrender in Hrender'.
    injection Hrender' as <-. intros key Hin Hin'.
    apply section_keys_generation in Hin as (l & j & ->).
    apply section_keys_generation in Hin' as (l' & j' & Hkey).
    apply card_key_same_generation in Hkey as (_ & _ & ?); done.
Qed.

Lemma section_remounts_every_card_witness :
  ∃ allLocales arrayOfLocale w' rows,
    data_prep (λ n, 2 ^ 50 * Z.of_nat n) sample_catalog empty_world
    = Some ((allLocales, arrayOfLocale), w')
    ∧ LanguageSectionRenderer arrayOfLocale "fr" intlayer 3 w' = Some (Some rows, w')
    ∧ rows.*1 = seq 0 20
    ∧ Forall (λ row, Z.of_nat (length row.2) = NUM_OF_ITEMS
                     ∧ NoDup (element_key <$> row.2)) rows
    ∧ length (section_keys rows) = 1000%nat
    ∧ ∀ displayLocale' renderKey' rows',
        0 ≤ renderKey' < 10 ^ 21 → renderKey' ≠ 3 →
        LanguageSectionRenderer arrayOfLocale displayLocale' intlayer renderKey' w'
        = Some (Some rows', w') →
        ∀ key, key ∈ section_keys rows → key ∉ section_keys rows'.
Proof.
  apply (section_remounts_every_card
           (λ n, 2 ^ 50 * Z.of_nat n) sample_catalog empty_world "fr" intlayer 3).
  - vm_compute. discriminate.
  - lia.
Defined.

(** ** The shuffle, again *)

(** X10. [shuffleArray] never returns its argument, and never writes to
    it: for every limit the array it returns is a new one (no array of the
    store it was called in), holding a prefix of a permutation of the
    argument's contents; the argument and every other array of that store
    hold afterwards what they held before. *)
Theorem shuffleArray_returns_a_new_array
    (random : nat → Z) (array : ref) (limit : option Z) (w : World) (xs : list string) :
  arrays w !! array = Some xs →
  ∃ result w' ys shuffled,
    shuffleArray random array limit w = Some (result, w')
    ∧ result ≠ array
    ∧ arrays w !! result = None
    ∧ arrays w' !! result = Some ys
    ∧ ys `prefix_of` shuffled
    ∧ shuffled ≡ₚ xs
    ∧ arrays w' !! array = Some xs
    ∧ ∀ a zs, arrays w !! a = Some zs → arrays w' !! a = Some zs.
Proof.
  intros Ha.
  destruct (shuffleArray_spec random (λ _ _, True) array limit w xs xs Ha)
    as (r & w' & shuffled & σ' & Hrun & Hsub & Hfresh & Hr & Hp & _).
  { by apply Forall_Forall2_diag, Forall_true. }
  exists r, w', (take (kept (length xs) limit) shuffled), shuffled.
  split; [done|]. split; [congruence|]. split; [done|]. split; [done|].
  split; [apply prefix_take|]. split; [done|].
  split; [by eapply lookup_weaken|]. intros a zs Hz. by eapply lookup_weaken.
Qed.

Lemma shuffleArray_returns_a_new_array_witness :
  ∃ result w' ys shuffled,
    shuffleArray (λ _, 0) 1%positive (Some 2)
      {| arrays := {[ 1%positive := ["a"; "b"; "c"] ]}; draws := 0 |}
    = Some (result, w')
    ∧ result ≠ 1%positive
    ∧ arrays {| arrays := {[ 1%positive := ["a"; "b"; "c"] ]}; draws := 0 |} !! result
      = None
    ∧ arrays w' !! result = Some ys
    ∧ ys `prefix_of` shuffled
    ∧ shuffled ≡ₚ ["a"; "b"; "c"]
    ∧ arrays w' !! 1%positive = Some ["a"; "b"; "c"]
    ∧ ∀ a zs,
        arrays {| arrays := {[ 1%positive := ["a"; "b"; "c"] ]}; draws := 0 |} !! a
        = Some zs →
        arrays w' !! a = Some zs.
Proof.
  apply (shuffleArray_returns_a_new_array (λ _, 0) 1%positive (Some 2)
           {| arrays := {[ 1%positive := ["a"; "b"; "c"] ]}; draws := 0 |}
           ["a"; "b"; "c"]).
  reflexivity.
Defined.

Lemma array_fill_map_draws random allLocales limit n w xs :
  arrays w !! allLocales = Some xs →
  ∃ batches w',
    array_fill_map n (shuffleArray random allLocales limit) w = Some (batches, w')
    ∧ arrays w ⊆ arrays w'
    ∧ draws w' = (draws w + n * (length xs - 1))%nat.
Proof.
  intros Ha. revert w Ha. induction n as [|n IH]; intros w Ha.
  { exists [], w. repeat split; [done|lia]. }
  destruct (shuffleArray_spec random (λ _ _, True) allLocales limit w xs xs Ha)
    as (b & w1 & shuffled & σ' & Hrun & Hsub & _ & _ & _ & _ & _ & Hd).
  { by apply Forall_Forall2_diag, Forall_true. }
  destruct (IH w1) as (bs & w' & Hruns & Hsub' & Hd'); [by eapply lookup_weaken|].
  exists (b :: bs), w'. split; [|split].
  - cbn [array_fill_map]. by rewrite bind_run, Hrun, bind_run, Hruns.
  - by etrans.
  - rewrite Hd', Hd. lia.
Qed.

(** X11. The shuffle draws once for each element but the first, whatever
    the limit: a call of [shuffleArray] on an array of [n] elements calls
    [Math.random()] exactly [n - 1] times (never, for an empty or
    one-element array), and the data preparation calls it
    [20 * (n - 1)] times for a catalog of [n] locales. *)
Theorem shuffle_draw_count
    (random : nat → Z) (array : ref) (limit : option Z) (w : World) (xs : list string) :
  arrays w !! array = Some xs →
  (∃ result w',
     shuffleArray random array limit w = Some (result, w')
     ∧ draws w' = (draws w + (length xs - 1))%nat)
  ∧ ∀ ALL_LOCALES, ∃ prepared w',
      data_prep random ALL_LOCALES w = Some (prepared, w')
      ∧ draws w' = (draws w + 20 * (length ALL_LOCALES - 1))%nat.
Proof.
  intros Ha. split.
  - destruct (shuffleArray_spec random (λ _ _, True) array limit w xs xs Ha)
      as (r & w' & shuffled & σ' & Hrun & _ & _ & _ & _ & _ & _ & Hd).
    { by apply Forall_Forall2_diag, Forall_true. }
    by exists r, w'.
  - intros ALL_LOCALES.
    set (a := fresh (dom (arrays w))).
    set (w1 := {| arrays := <[a := ALL_LOCALES]> (arrays w); draws := draws w |}).
    destruct (array_fill_map_draws random a (Some NUM_OF_ITEMS) 20 w1 ALL_LOCALES)
      as (bs & w' & Hrun & _ & Hd); [apply lookup_insert_eq|].
    exists (a, bs), w'. split; [|done].
    unfold data_prep. rewrite bind_run, new_array_run. fold a. fold w1.
    by rewrite bind_run, Hrun.
Qed.

Lemma shuffle_draw_count_witness :
  (∃ result w',
     shuffleArray (λ _, 0) 1%positive None
       {| arrays := {[ 1%positive := ["a"; "b"; "c"] ]}; draws := 4 |}
     = Some (result, w')
     ∧ draws w' = (4 + (length ["a"; "b"; "c"] - 1))%nat)
  ∧ ∀ ALL_LOCALES, ∃ prepared w',
      data_prep (λ _, 0) ALL_LOCALES
        {| arrays := {[ 1%positive := ["a"; "b"; "c"] ]}; draws := 4 |}
      = Some (prepared, w')
      ∧ draws w' = (4 + 20 * (length ALL_LOCALES - 1))%nat.
Proof.
  apply (shuffle_draw_count (λ _, 0) 1%positive None
           {| arrays := {[ 1%positive := ["a"; "b"; "c"] ]}; draws := 4 |}
           ["a"; "b"; "c"]).
  reflexivity.
Defined.

(** X12. Empty and one-element arrays come back as they are: the copy
    returned holds the argument's contents (cut by a truthy limit as
    [slice(0, limit)] cuts them, so empty for a negative limit), and no
    draw is made. *)
Theorem shuffleArray_of_short_array
    (random : nat → Z) (array : ref) (limit : option Z) (w : World) (xs : list string) :
  arrays w !! array = Some xs →
  (length xs ≤ 1)%nat →
  ∃ result w',
    shuffleArray random array limit w = Some (result, w')
    ∧ arrays w' !! result
      = Some (match limit with
              | Some l => if 0 <=? l then xs else []
              | None => xs
              end)
    ∧ draws w' = draws w.
Proof.
  intros Ha Hlen.
  destruct (shuffleArray_spec random (λ _ _, True) array limit w xs xs Ha)
    as (r & w' & shuffled & σ' & Hrun & _ & _ & Hr & Hp & _ & _ & Hd).
  { by apply Forall_Forall2_diag, Forall_true. }
  exists r, w'. split; [done|]. split; [|lia].
  assert (shuffled = xs) as ->.
  { destruct xs as [|x [|? ?]]; simpl in Hlen; [| |lia].
    - by apply Permutation_nil_r in Hp.
    - by apply Permutation_singleton_r in Hp. }
  rewrite Hr. f_equal. unfold kept, truthy, slice_bound.
  destruct limit as [l|]; simpl; [|by rewrite firstn_all].
  destruct (Z.eqb_spec l 0) as [->|Hl]; simpl; [by rewrite firstn_all|].
  destruct (Z.ltb_spec l 0), (Z.leb_spec 0 l); try lia.
  - replace (Z.to_nat (Z.max (Z.of_nat (length xs) + l) 0)) with 0%nat by lia. done.
  - apply take_ge. lia.
Qed.

Lemma shuffleArray_of_short_array_witness :
  ∃ result w',
    shuffleArray (λ _, 5) 1%positive (Some 50)
      {| arrays := {[ 1%positive := ["en"] ]}; draws := 0 |}
    = Some (result, w')
    ∧ arrays w' !! result
      = Some (if 0 <=? 50 then ["en"] else [])
    ∧ draws w' = draws {| arrays := {[ 1%positive := ["en"] ]}; draws := 0 |}.
Proof.
  apply (shuffleArray_of_short_array (λ _, 5) 1%positive (Some 50)
           {| arrays := {[ 1%positive := ["en"] ]}; draws := 0 |} ["en"]).
  - reflexivity.
  - simpl. lia.
Defined.

(** ** Every permutation can be drawn *)

Lemma round_to_near_below q x :
  0 < q → 0 ≤ x → 2 * (x - Number.round_to q x) ≤ q.
Proof.
  intros Hq Hx. unfold Number.round_to.
  pose proof (Z.div_mod x q ltac:(lia)) as Hdm.
  pose proof (Z.mod_pos_bound x q Hq) as Hr.
  repeat case_match; nia.
Qed.

Lemma of_Z_near_below x : 0 ≤ x → 2 ^ 53 * (x - Number.of_Z x) ≤ x.
Proof.
  intros Hx. unfold Number.of_Z.
  destruct (Z.ltb_spec (Z.log2 (Z.abs x)) 53) as [He|He]; [lia|].
  rewrite Z.abs_eq in * by done.
  assert (0 < x) as Hpos.
  { destruct (decide (x = 0)) as [->|]; [done|lia]. }
  pose proof (Z.log2_spec x Hpos) as [Hlog _].
  set (e := Z.log2 x) in *.
  assert (2 ^ e = 2 ^ 52 * 2 ^ (e - 52)) as Hsplit.
  { rewrite <- Z.pow_add_r by lia. f_equal. lia. }
  assert (0 < 2 ^ (e - 52)) as Hq by (apply Z.pow_pos_nonneg; lia).
  pose proof (round_to_near_below (2 ^ (e - 52)) x Hq Hx) as Hnear.
  nia.
Qed.

(** For an array of up to [2^32] slots every slot has a draw that picks
    it: the draw in the middle of the slot's share of [[0, 1)]. *)
Lemma draw_for_index n j :
  0 ≤ j < n → n ≤ 2 ^ 32 → ∃ r, Math.floor_random_times r n = j.
Proof.
  intros Hj Hn. exists (((2 * j + 1) * 2 ^ 52) / n).
  unfold Math.floor_random_times, Math.numerator.
  set (p := (2 * j + 1) * 2 ^ 52 / n).
  assert (0 ≤ p < 2 ^ 53) as Hp.
  { unfold p. split; [apply Z.div_pos; lia|].
    apply Z.div_lt_upper_bound; [lia|]. nia. }
  rewrite (Z.mod_small p) by done.
  assert ((2 * j + 1) * 2 ^ 52 - n < p * n ≤ (2 * j + 1) * 2 ^ 52) as HX.
  { pose proof (Z.div_mod ((2 * j + 1) * 2 ^ 52) n ltac:(lia)) as Hdm.
    pose proof (Z.mod_pos_bound ((2 * j + 1) * 2 ^ 52) n ltac:(lia)) as Hr.
    fold p in Hdm. lia. }
  set (X := p * n) in *.
  assert (0 ≤ X) as HX0 by lia.
  destruct (of_Z_near X HX0) as [_ Hup]. pose proof (of_Z_near_below X HX0) as Hlo.
  assert (X < 2 ^ 53 * n) as HXn by nia.
  assert (Number.of_Z X - X < n) as Hup' by nia.
  assert (X - Number.of_Z X < n) as Hlo' by nia.
  symmetry. apply Z.div_unique with (r := Number.of_Z X - 2 ^ 53 * j); lia.
Qed.

(** The loop can leave the array in any order that agrees with the array
    beyond the loop's index: some draws take it there. *)
Lemma shuffle_loop_reaches a i w xs target :
  arrays w !! a = Some xs →
  (i = 0 ∨ i < length xs)%nat →
  Z.of_nat (length xs) ≤ 2 ^ 32 →
  target ≡ₚ xs →
  drop (S i) target = drop (S i) xs →
  ∃ ds : list Z,
    length ds = i
    ∧ ∀ random,
        (∀ k d, ds !! k = Some d → random (draws w + k)%nat = d) →
        shuffle_loop random a i w
        = Some (tt, {| arrays := <[a := target]> (arrays w);
                       draws := (draws w + i)%nat |}).
Proof.
  revert w xs. induction i as [|i IH]; intros w xs Ha Hi Hsize Hp Hdrop.
  { exists []. split; [done|]. intros random _.
    assert (target = xs) as ->.
    { destruct xs as [|x xs], target as [|y target]; simpl in Hdrop.
      - done.
      - by apply Permutation_nil_r in Hp.
      - symmetry in Hp. by apply Permutation_nil_r in Hp.
      - rewrite !drop_0 in Hdrop. subst target.
        apply (Permutation_app_inv_r xs [y] [x]) in Hp.
        by apply Permutation_singleton_r in Hp as [= ->]. }
    destruct w as [arr n]; simpl in *. by rewrite insert_id, Nat.add_0_r. }
  destruct Hi as [|Hi]; [done|].
  assert (length target = length xs) as Hlen by by rewrite Hp.
  destruct (lookup_lt_is_Some_2 target (S i)) as [y Hy]; [lia|].
  (* the element wanted at [S i] is among the first [S i + 1] of [xs] *)
  assert (take (S (S i)) target ≡ₚ take (S (S i)) xs) as Htake.
  { apply (Permutation_app_inv_r (drop (S (S i)) xs)).
    rewrite take_drop, <- Hdrop, take_drop. done. }
  assert (∃ j, (j < S (S i))%nat ∧ xs !! j = Some y) as (j & Hj & Hxj).
  { assert (y ∈ take (S (S i)) xs) as Hin.
    { rewrite <- Htake. apply list_elem_of_lookup. exists (S i).
      rewrite lookup_take_lt by lia. done. }
    apply list_elem_of_lookup in Hin as [j Hin].
    exists j. apply lookup_take_Some in Hin. tauto. }
  destruct (draw_for_index (Z.of_nat (S i) + 1) (Z.of_nat j)) as [d Hd]; [lia|lia|].
  destruct (lookup_lt_is_Some_2 xs (S i) Hi) as [xi Hxi].
  set (xs1 := <[j := xi]> (<[S i := y]> xs)).
  set (w1 := {| arrays := arrays w; draws := S (draws w) |}).
  set (w3 := {| arrays := <[a := xs1]> (arrays w); draws := S (draws w) |}).
  assert (xs1 ≡ₚ xs) as Hp1 by by apply Permutation_insert_swap.
  assert (xs1 !! S i = Some y) as H1y.
  { unfold xs1. destruct (decide (j = S i)) as [->|Hne].
    - rewrite list_lookup_insert_eq by (rewrite length_insert; lia). congruence.
    - rewrite list_lookup_insert_ne by done.
      by rewrite list_lookup_insert_eq by lia. }
  assert (∀ m, (S i < m)%nat → xs1 !! m = xs !! m) as H1m.
  { intros m Hm. unfold xs1. by rewrite !list_lookup_insert_ne by lia. }
  destruct (IH w3 xs1) as (ds & Hds & Hrun).
  { simpl. apply lookup_insert_eq. }
  { right. unfold xs1. rewrite !length_insert. lia. }
  { unfold xs1. rewrite !length_insert. lia. }
  { by rewrite Hp1. }
  { apply list_eq. intros m. rewrite !lookup_drop.
    destruct m as [|m].
    - rewrite Nat.add_0_r. congruence.
    - rewrite H1m by lia.
      assert (drop (S (S i)) target !! m = drop (S (S i)) xs !! m) as Hm
        by by rewrite Hdrop.
      rewrite !lookup_drop in Hm. by replace (S i + S m)%nat with (S (S i) + m)%nat by lia. }
  exists (d :: ds). split; [simpl; lia|]. intros random Hrandom.
  assert (random (draws w) = d) as Hr0.
  { rewrite <- (Nat.add_0_r (draws w)). by apply Hrandom. }
  cbn [shuffle_loop]. rewrite bind_run. unfold Math_random at 1. fold w1.
  rewrite Hr0, Hd, Nat2Z.id.
  rewrite bind_run, (get_run _ _ w1 xs y) by done.
  rewrite bind_run, (get_run _ _ w1 xs xi) by done.
  rewrite bind_run, (put_run _ _ _ w1 xs) by done.
  rewrite bind_run, (put_run _ _ _ _ (<[S i := y]> xs));
    [|apply lookup_insert_eq|rewrite length_insert; lia].
  simpl arrays. simpl draws. rewrite insert_insert_eq. fold xs1. fold w3.
  rewrite Hrun.
  - simpl. rewrite insert_insert_eq. do 3 f_equal. lia.
  - intros k d' Hk. simpl. replace (S (draws w + k)) with (draws w + S k)%nat by lia.
    by apply Hrandom.
Qed.

(** X13. The shuffle can return every permutation: for each ordering
    [target] of the elements of an array (of at most [2^32] elements, as
    every JavaScript array is) there is a sequence of draws for which
    [shuffleArray], called without a limit, returns [target]; the argument
    is unchanged. *)
Theorem shuffleArray_reaches_every_permutation (xs target : list string) :
  target ≡ₚ xs →
  Z.of_nat (length xs) ≤ 2 ^ 32 →
  ∃ random, call_shuffleArray random xs None = Some (target, xs).
Proof.
  intros Hp Hsize.
  set (a := fresh (dom (arrays empty_world))).
  set (w0 := {| arrays := <[a := xs]> (arrays empty_world); draws := 0 |}).
  set (s := fresh (dom (arrays w0))).
  set (w1 := {| arrays := <[s := xs]> (arrays w0); draws := 0 |}).
  assert (arrays w0 !! s = None) as Hs by apply new_array_fresh.
  assert (s ≠ a) as Hsa.
  { intros ->. simpl in Hs. by rewrite lookup_insert_eq in Hs. }
  destruct (shuffle_loop_reaches s (Z.to_nat (Z.of_nat (length xs) - 1)) w1 xs target)
    as (ds & Hds & Hrun); [apply lookup_insert_eq|lia|done|done| |].
  { destruct (decide (length xs = 0)%nat) as [H0|H0].
    - apply nil_length_inv in H0 as ->. by apply Permutation_nil_r in Hp as ->.
    - replace (S (Z.to_nat (Z.of_nat (length xs) - 1))) with (length xs) by lia.
      rewrite !drop_ge; [done|lia|by rewrite Hp]. }
  exists (λ n, default 0 (ds !! n)).
  unfold call_shuffleArray.
  rewrite bind_run, new_array_run. fold a. fold w0.
  rewrite bind_run. unfold shuffleArray.
  rewrite bind_run, (read_run _ _ xs) by apply lookup_insert_eq.
  rewrite bind_run, new_array_run. fold s. fold w1.
  rewrite bind_run, Hrun by (intros k d Hk; simpl; by rewrite Hk).
  change (truthy None) with false. cbv iota. unfold mret, M_ret. cbv iota beta.
  rewrite bind_run, (read_run _ _ target) by (simpl; apply lookup_insert_eq).
  rewrite bind_run, (read_run _ _ xs); [done|].
  simpl. rewrite insert_insert_eq, lookup_insert_ne by done. apply lookup_insert_eq.
Qed.

Lemma shuffleArray_reaches_every_permutation_witness :
  ∃ random, call_shuffleArray random ["en"; "fr"; "de"] None
            = Some (["de"; "en"; "fr"], ["en"; "fr"; "de"]).
Proof.
  apply (shuffleArray_reaches_every_permutation ["en"; "fr"; "de"] ["de"; "en"; "fr"]).
  - apply (Permutation_app_comm ["de"] ["en"; "fr"]).
  - simpl. lia.
Defined.

(** ** When the date of a card stops being a date *)

(** Rounding to a double does not fall below a bound that is a double
    itself, here any bound up to [2^52]. *)
Lemma of_Z_ge x m : m ≤ x → 0 ≤ m ≤ 2 ^ 52 → m ≤ Number.of_Z x.
Proof.
  intros Hx Hm. destruct (decide (x < 2 ^ 53)) as [Hlt|Hge].
  - rewrite of_Z_small by lia. done.
  - pose proof (of_Z_near_below x ltac:(lia)). nia.
Qed.

Lemma fold_add_nonneg cs acc :
  Forall (λ c, 0 ≤ c < 256) cs → 0 ≤ acc →
  0 ≤ fold_left (λ acc code, Number.add acc code) cs acc.
Proof.
  intros Hcs. revert acc. induction Hcs as [|c cs Hc _ IH]; intros acc Hacc; [done|].
  simpl. apply IH. unfold Number.add. apply of_Z_near. lia.
Qed.

Lemma uniqueOffset_nonneg locale : 0 ≤ uniqueOffset locale.
Proof. apply fold_add_nonneg; [apply charCodes_range|done]. Qed.

(** X14. The dates run out after about 274 thousand triggers.  In a host
    with a constant UTC offset, at any clock reading from the epoch on: from
    generation 273973 on the date of every card is invalid (the shift
    exceeds the 100,000,000 days a [Date] can hold); up to generation
    273000, for clock readings before the year 2100 and locales whose
    character codes sum to at most 100000, it is the clock reading shifted
    by [365 * renderKey + hash locale] days. *)
Theorem dates_run_out (tza now : Z) (locale : string) (renderKey : Z) :
  0 ≤ now → 0 ≤ renderKey →
  (273973 ≤ renderKey → dynamicDate (λ _ _, tza) now locale renderKey = None)
  ∧ (renderKey ≤ 273000 → now ≤ 4102444800000 → hash locale ≤ 100000 →
     dynamicDate (λ _ _, tza) now locale renderKey
     = Some (now + (365 * renderKey + hash locale) * Date.msPerDay)).
Proof.
  intros Hnow Hk. split.
  - intros Hmany. unfold dynamicDate.
    pose proof (DateFromTime_range (Date.LocalTime (λ _ _, tza) now)) as HD.
    pose proof (uniqueOffset_nonneg locale) as Hoff.
    set (D := Date.getDate (λ _ _, tza) now) in *.
    assert (100000145 ≤ Number.mul renderKey 365) as Ha.
    { unfold Number.mul. apply of_Z_ge; lia. }
    assert (100000146 ≤ Number.add D (Number.mul renderKey 365)) as Hb.
    { unfold Number.add. apply of_Z_ge; [unfold D, Date.getDate; lia|lia]. }
    assert (100000146
            ≤ Number.add (Number.add D (Number.mul renderKey 365)) (uniqueOffset locale))
      as Hc.
    { unfold Number.add at 1. apply of_Z_ge; lia. }
    set (date := Number.add (Number.add D (Number.mul renderKey 365)) (uniqueOffset locale))
      in *.
    replace date with (D + (date - D)) by lia. unfold D.
    rewrite setDate_getDate_plus.
    unfold Date.TimeClip, Date.UTC, Date.LocalTime, Date.msPerDay.
    fold D. rewrite (proj2 (Z.ltb_lt _ _)); [done|].
    unfold D, Date.getDate in *. lia.
  - intros Hfew Hclock Hhash. pose proof (hash_nonneg locale) as Hh.
    rewrite dynamicDate_exact by (done || lia).
    unfold Date.TimeClip, Date.UTC, Date.LocalTime, Date.msPerDay.
    rewrite (proj2 (Z.ltb_ge _ _)) by lia. f_equal. lia.
Qed.

Lemma dates_run_out_witness :
  (273973 ≤ 273973 → dynamicDate (λ _ _, 3600000) 1793613600000 "fr" 273973 = None)
  ∧ (273973 ≤ 273000 → 1793613600000 ≤ 4102444800000 → hash "fr" ≤ 100000 →
     dynamicDate (λ _ _, 3600000) 1793613600000 "fr" 273973
     = Some (1793613600000 + (365 * 273973 + hash "fr") * Date.msPerDay)).
Proof. apply (dates_run_out 3600000 1793613600000 "fr" 273973); lia. Defined.
